(** * Verification of the boundary-aware fuzzy matcher

    Shallow embedding of
    [packages/text-search-engine/src/search.ts]:
    [searchByBoundaryMapping] (the scoring DP over a transliteration
    slice), [searchSentenceByBoundaryMapping] (word splitting over the
    not-yet-claimed ranges), [searchWithIndexof] (the literal fast path)
    and [searchEntry].

    Conventions of the embedding.
    - A JavaScript string is the list of its UTF-16 code units, each a
      number in [N]; [s[i]] outside the string is [undefined], here [None].
    - A JavaScript number that the program uses as an index, a length, a
      score or a character position is an integer in [Z] (exact below
      2^53); array positions that the loops count upwards are in [nat].
    - An array is a list.  Reading outside an array yields [undefined] in
      JavaScript; every such read in this program is immediately indexed
      or destructured, which throws a [TypeError].  The embedding records
      this as the completion [Throws].  A write [a[p] = v] to [dpTable],
      [dpScores] or [dpMatchPath] always follows a read of [a[p]] in the
      same turn, so it is inside the array and is a list insert; a write
      to a cell of a path row is [Js.set], which grows the row when the
      cell is beyond its end.
    - A function result is a [Completion]: a normal return, a thrown
      exception, or a loop that does not end. *)

From Stdlib Require Import ZArith NArith Lia Bool String Ascii.
From stdpp Require Import base list.

Local Open Scope Z_scope.

(** ** Completions: normal return, exception, divergence *)

Inductive Completion (A : Type) : Type :=
| Normal (a : A)
| Throws
| Diverges.

Arguments Normal {A} a.
Arguments Throws {A}.
Arguments Diverges {A}.

#[global] Instance Completion_bind : MBind Completion := fun A B f c =>
  match c with
  | Normal a => f a
  | Throws => Throws
  | Diverges => Diverges
  end.

(** Use of an array element: an absent element throws. *)
Definition must {A} (o : option A) : Completion A :=
  match o with
  | Some a => Normal a
  | None => Throws
  end.

(** ** JavaScript primitives *)

Module Js.

(** [a[i]] for a number [i]: [undefined] when [i] is negative or not
    below the length. *)
Definition at_ {A} (a : list A) (i : Z) : option A :=
  if i <? 0 then None else a !! Z.to_nat i.

(** [===] between two values that are a code unit or [undefined]. *)
Definition strictEq (x y : option N) : bool :=
  match x, y with
  | Some a, Some b => N.eqb a b
  | None, None => true
  | _, _ => false
  end.

(** Relative index of [slice]: a negative argument counts from the end
    and the result is clamped to [0 .. len]. *)
Definition relIndex (len k : Z) : Z :=
  if k <? 0 then Z.max (len + k) 0 else Z.min k len.

(** [a.slice(from, to)] with both arguments already numbers. *)
Definition slice {A} (a : list A) (from to : Z) : list A :=
  let len := Z.of_nat (length a) in
  let lo := relIndex len from in
  let hi := relIndex len to in
  take (Z.to_nat (hi - lo)) (drop (Z.to_nat lo) a).

(** [a[i] = v]: inside the array the element is replaced; beyond its
    end the array grows, the skipped positions being holes. *)
Definition set {A} (hole : A) (i : nat) (v : A) (a : list A) : list A :=
  if (i <? length a)%nat then <[i := v]> a
  else a ++ replicate (i - length a) hole ++ [v].

(** [~~b] for a boolean [b]. *)
Definition toInt (b : bool) : Z := if b then 1 else 0.

(** Prefix test on code units. *)
Fixpoint startsWith (s t : list N) {struct t} : bool :=
  match t, s with
  | [], _ => true
  | _ :: _, [] => false
  | b :: t', a :: s' => N.eqb a b && startsWith s' t'
  end.

(** [s.indexOf(t)] scanning from position [i]: the first position at
    which [t] occurs, [-1] when there is none. *)
Fixpoint indexOfFrom (i : Z) (s t : list N) : Z :=
  if startsWith s t then i
  else match s with
       | [] => -1
       | _ :: s' => indexOfFrom (i + 1) s' t
       end.

Definition indexOf (s t : list N) : Z := indexOfFrom 0 s t.

(** White space of [String.prototype.trim] and of the regular
    expression class [\s] (they are the same set). *)
Definition isWhiteSpace (c : N) : bool :=
  let c := Z.of_N c in
  ((9 <=? c) && (c <=? 13)) || (c =? 32) || (c =? 160) || (c =? 5760)
  || ((8192 <=? c) && (c <=? 8202)) || (c =? 8232) || (c =? 8233)
  || (c =? 8239) || (c =? 8287) || (c =? 12288) || (c =? 65279).

Fixpoint trimStart (s : list N) : list N :=
  match s with
  | [] => []
  | c :: s' => if isWhiteSpace c then trimStart s' else s
  end.

Definition trimEnd (s : list N) : list N := reverse (trimStart (reverse s)).

Definition trim (s : list N) : list N := trimEnd (trimStart s).

(** [s.split(/\s+/)]: [cur] is the piece being read (reversed), [sep]
    tells that the previous code unit was white space. *)
Fixpoint splitLoop (cur : list N) (sep : bool) (s : list N) : list (list N) :=
  match s with
  | [] => [reverse cur]
  | c :: s' =>
      if isWhiteSpace c then
        if sep then splitLoop cur true s'
        else reverse cur :: splitLoop [] true s'
      else splitLoop (c :: cur) false s'
  end.

Definition splitWhiteSpace (s : list N) : list (list N) := splitLoop [] false s.

(** Code units of a literal made of ASCII characters. *)
Definition ofString (s : string) : list N :=
  map N_of_ascii (list_ascii_of_string s).

End Js.

(** ** Data model ([types.ts] is not part of the sources; the fields are
    the ones [search.ts] reads) *)

Abbreviation Matrix := (list (Z * Z)).

(** One entry of [dpTable]:
    [matched characters, matched letters, boundary start, boundary end]. *)
Abbreviation Item := (Z * Z * Z * Z)%type.

(** One cell of [dpMatchPath]: [start, end, matched letters]. *)
Abbreviation PathCell := (Z * Z * Z)%type.

Record SourceMappingData : Type := {
  originalString : list N;
  originalLength : Z;
  pinyinString : list N;
  boundary : list (Z * Z);
  originalIndices : list Z
}.

Record DpState : Type := {
  dpTable : list Item;
  dpScores : list Z;
  dpMatchPath : list (list (option PathCell))
}.

Definition defaultDpTableValue : Item := (0, 0, -1, -1).

(** [row[i]] of a row of [dpMatchPath]: a hole and a position outside the
    row both read as [undefined]. *)
Definition cellAt (row : list (option PathCell)) (i : Z) : option PathCell :=
  match Js.at_ row i with
  | Some c => c
  | None => None
  end.

(** The return statement by which [searchByBoundaryMapping] leaves. *)
Inductive Return : Type :=
| Return17                  (* guard on the lengths, line 17 *)
| Return33                  (* a letter has no anchor, line 33 *)
| Return129                 (* no path for the last letter, line 129 *)
| Return137 (hitIndices : Matrix).

Definition valueOf (r : Return) : option Matrix :=
  match r with
  | Return137 m => Some m
  | _ => None
  end.

(** ** The matcher of one word, lines 11 to 138 *)

Section CoreMatcher.

(** The slices of lines 13 and 14, the word, and the two offsets of
    lines 20 and 21. *)
Variables (pinyin : list N) (bnd : list (Z * Z)) (target : list N).
Variables (startBoundary endBoundary : Z).

Let pinyinLength : nat := length pinyin.

(** Lines 25 to 30: [scan i pinyin target] lists, for the letters of
    [target] in order, the earliest position not yet used at which
    each occurs; [i] is the position of the head of the first list.
    The list stops at the first letter that has no position, so its
    length is the final [matchIndex]. *)
Fixpoint scan (i : nat) (ps ts : list N) {struct ps} : list nat :=
  match ts, ps with
  | [], _ => []
  | _ :: _, [] => []
  | t :: ts', c :: ps' =>
      if N.eqb c t then i :: scan (S i) ps' ts' else scan (S i) ps' ts
  end.

(** Lines 72 to 74. *)
Definition isNewWord (p : nat) (b : Z * Z) (prev : Item) : bool :=
  let '(_, _, prevBoundaryStart, _) := prev in
  (Z.of_nat p - 1 =? b.2 - endBoundary)
  && negb (prevBoundaryStart =? b.1 - startBoundary).

(** Lines 78 to 83. *)
Definition isContinuation (matchIndex p : nat) (b : Z * Z) (prev : Item) : bool :=
  let '(prevMatchedStrings, _, _, prevBoundaryEnd) := prev in
  (0 <? prevMatchedStrings)
  && (prevBoundaryEnd =? b.2 - endBoundary)
  && Js.strictEq (Js.at_ pinyin (Z.of_nat p - 2))
                 (Js.at_ target (Z.of_nat matchIndex - 1)).

(** Line 84. *)
Definition isEqual (matchIndex p : nat) : bool :=
  Js.strictEq (Js.at_ pinyin (Z.of_nat p - 1)) (Js.at_ target (Z.of_nat matchIndex)).

(** The condition of line 87. *)
Definition extends_ (matchIndex p : nat) (b : Z * Z) (prev : Item) (prevScore : Z) : bool :=
  isEqual matchIndex p
  && (isNewWord p b prev || isContinuation matchIndex p b prev)
  && ((matchIndex =? 0)%nat || (0 <? prevScore)).

(** Line 88: the score of the extension. *)
Definition extendedScore (prev : Item) (prevScore : Z) : Z :=
  let '(_, prevMatchedLetters, _, _) := prev in
  prevScore + (prevMatchedLetters * 2 + 1).

(** Lines 95 to 100: the entry written on acceptance. *)
Definition extendedItem (p : nat) (b : Z * Z) (prev : Item) : Item :=
  let '(prevMatchedStrings, prevMatchedLetters, _, _) := prev in
  (prevMatchedStrings + Js.toInt (isNewWord p b prev),
   prevMatchedLetters + 1,
   b.1 - startBoundary,
   b.2 - endBoundary).

(** Line 108: the path cell of a strictly better extension. *)
Definition extendedCell (p : nat) (b : Z * Z) (prev : Item) : PathCell :=
  let '(prevMatchedStrings, prevMatchedLetters, _, _) := prev in
  let originalStringIndex := b.1 - startBoundary in
  (originalStringIndex - prevMatchedStrings + Js.toInt (negb (isNewWord p b prev)),
   originalStringIndex,
   prevMatchedLetters + 1).

(** [dpMatchPath[p][matchIndex] = cell]. *)
Definition setPath (p matchIndex : nat) (cell : option PathCell)
    (path : list (list (option PathCell))) : Completion (list (list (option PathCell))) :=
  row ← must (path !! p);
  Normal (<[p := Js.set None matchIndex cell row]> path).

(** [dpMatchPath[p - 1][matchIndex]]. *)
Definition leftPath (p matchIndex : nat) (path : list (list (option PathCell)))
    : Completion (option PathCell) :=
  row ← must (path !! (p - 1)%nat);
  Normal (cellAt row (Z.of_nat matchIndex)).

(** Lines 118 to 123: whether the entry of [p - 1] is reused at [p]:
    the letter at [p] is in the character recorded there, or in the
    next one while the letter after [p] is still in the character of
    [p].  [boundary[p + 1]] is read only behind the two tests before it. *)
Definition keepsEntry (p : nat) (b : Z * Z) (leftItem : Item) : Completion bool :=
  let gap := b.1 - startBoundary - leftItem.1.2 in
  let isWithInRange := Z.of_nat p <? Z.of_nat pinyinLength - 1 in
  if gap =? 0 then Normal true
  else if isWithInRange && (gap =? 1) then
         next ← must (bnd !! S p);
         Normal (b.1 =? next.1)
       else Normal false.

(** Lines 114 to 125: nothing is accepted at [p]; score and path are
    those of [p - 1], the table entry is the one of [p - 1] or a fresh
    one. *)
Definition carryForward (matchIndex p : nat) (b : Z * Z) (st : DpState) : Completion DpState :=
  leftScore ← must (dpScores st !! (p - 1)%nat);
  cell ← leftPath p matchIndex (dpMatchPath st);
  path' ← setPath p matchIndex cell (dpMatchPath st);
  leftItem ← must (dpTable st !! (p - 1)%nat);
  keep ← keepsEntry p b leftItem;
  Normal {| dpTable := <[p := if keep : bool then leftItem else defaultDpTableValue]>
                       (dpTable st);
          dpScores := <[p := leftScore]> (dpScores st);
          dpMatchPath := path' |}.

(** Lines 92 to 111: the extension is written when its score is at
    least the score recorded at [p - 1]. *)
Definition acceptExtension (matchIndex p : nat) (b : Z * Z) (prev : Item) (prevScore : Z)
    (st : DpState) : Completion DpState :=
  let score := extendedScore prev prevScore in
  leftScore ← must (dpScores st !! (p - 1)%nat);
  let newMatched := leftScore <? score in
  cell ← (if newMatched then Normal (Some (extendedCell p b prev))
          else leftPath p matchIndex (dpMatchPath st));
  path' ← setPath p matchIndex cell (dpMatchPath st);
  Normal {| dpTable := <[p := extendedItem p b prev]> (dpTable st);
          dpScores := <[p := score]> (dpScores st);
          dpMatchPath := path' |}.

(** One turn of the inner loop, lines 60 to 125, at position [p] for
    the letter [matchIndex]; [current] is [currentDpTableItem] with
    [currentScore].  The result carries their next values.  The loop
    starts at [matchPositions[matchIndex] + 1], so [p] is at least 1 and
    [p - 1] is a position. *)
Definition dpStep (matchIndex p : nat) (current : Item * Z) (st : DpState)
    : Completion (Item * Z * DpState) :=
  let '(prev, prevScore) := current in
  nextItem ← must (dpTable st !! p);
  nextScore ← must (dpScores st !! p);
  b ← must (bnd !! p);
  leftScore ← must (dpScores st !! (p - 1)%nat);
  st' ← (if extends_ matchIndex p b prev prevScore
            && (leftScore <=? extendedScore prev prevScore)
         then acceptExtension matchIndex p b prev prevScore st
         else carryForward matchIndex p b st);
  Normal (nextItem, nextScore, st').

(** The inner loop, line 59: [n] turns from position [p]. *)
Fixpoint dpInner (n : nat) (matchIndex p : nat) (current : Item * Z) (st : DpState)
    : Completion DpState :=
  match n with
  | O => Normal st
  | S n' =>
      '(nextItem, nextScore, st') ← dpStep matchIndex p current st;
      dpInner n' matchIndex (S p) (nextItem, nextScore) st'
  end.

(** One turn of the outer loop, lines 47 to 126, for the letter
    [matchIndex] anchored at [matchPosition]. *)
Definition dpPass (matchIndex matchPosition : nat) (st : DpState) : Completion DpState :=
  let matchedPinyinIndex := S matchPosition in
  currentDpTableItem ← must (dpTable st !! (matchedPinyinIndex - 1)%nat);
  currentScore ← must (dpScores st !! (matchedPinyinIndex - 1)%nat);
  let st1 := {| dpTable := <[(matchedPinyinIndex - 1)%nat := defaultDpTableValue]>
                             (dpTable st);
                dpScores := <[(matchedPinyinIndex - 1)%nat := 0]> (dpScores st);
                dpMatchPath := dpMatchPath st |} in
  dpInner (S pinyinLength - matchedPinyinIndex) matchIndex matchedPinyinIndex
          (currentDpTableItem, currentScore) st1.

(** The outer loop, line 44, over the anchors from [matchIndex] on. *)
Fixpoint dpOuter (matchIndex : nat) (matchPositions : list nat) (st : DpState)
    : Completion DpState :=
  match matchPositions with
  | [] => Normal st
  | matchPosition :: rest =>
      st' ← dpPass matchIndex matchPosition st;
      dpOuter (S matchIndex) rest st'
  end.

(** Lines 39 to 41. *)
Definition dpInit : DpState :=
  {| dpTable := replicate (S pinyinLength) defaultDpTableValue;
     dpScores := replicate (S pinyinLength) 0;
     dpMatchPath := replicate (S pinyinLength) (replicate (length target) None) |}.

(** Lines 132 to 136: the loop has no bound of its own, [fuel] counts
    its turns; [Diverges] when they are used up.  The matcher gives it
    one turn per letter of the word, which is enough as soon as every
    turn consumes at least one letter. *)
Fixpoint backtrack (fuel : nat) (row : list (option PathCell)) (i : Z)
    (startIndex : Z) (hitIndices : Matrix) : Completion Matrix :=
  if i <? 0 then Normal hitIndices
  else match fuel with
       | O => Diverges
       | S fuel' =>
           '(start, end_, matchedLetters) ← must (cellAt row i);
           backtrack fuel' row (i - matchedLetters) startIndex
                     ((start + startIndex, end_ + startIndex) :: hitIndices)
       end.

(** Lines 23 to 137, after the guard of line 17. *)
Definition matchWord (startIndex : Z) : Completion Return :=
  let targetLength := length target in
  let matchPositions := scan 0 pinyin target in
  if (length matchPositions <? targetLength)%nat then Normal Return33
  else
    st ← dpOuter 0 matchPositions dpInit;
    lastRow ← must (dpMatchPath st !! pinyinLength);
    match cellAt lastRow (Z.of_nat targetLength - 1) with
    | None => Normal Return129
    | Some _ =>
        hitIndices ← backtrack targetLength lastRow (Z.of_nat targetLength - 1) startIndex [];
        Normal (Return137 hitIndices)
    end.

End CoreMatcher.

(** Line 13: [data.originalIndices[i]] as the first argument of [slice]
    ([undefined] reads as 0). *)
Definition sliceFrom (data : SourceMappingData) (i : Z) : Z :=
  default 0 (Js.at_ (originalIndices data) i).

(** Line 13: the transliteration slice; an [undefined] end leaves the
    slice open. *)
Definition pinyinSlice (data : SourceMappingData) (startIndex endIndex : Z) : list N :=
  Js.slice (pinyinString data) (sliceFrom data startIndex)
    (default (Z.of_nat (length (pinyinString data)))
       (Js.at_ (originalIndices data) endIndex)).

(** Line 14: the boundary slice; [undefined + 1] is [NaN], which [slice]
    reads as 0. *)
Definition boundarySlice (data : SourceMappingData) (startIndex endIndex : Z) : list (Z * Z) :=
  Js.slice (boundary data) (sliceFrom data startIndex)
    (match Js.at_ (originalIndices data) endIndex with
     | Some e => e + 1
     | None => 0
     end).

Definition searchByBoundaryMapping (data : SourceMappingData) (target : list N)
    (startIndex endIndex : Z) : Completion Return :=
  let pinyin := pinyinSlice data startIndex endIndex in
  let bnd := boundarySlice data startIndex endIndex in
  if (length target =? 0)%nat || (length pinyin <? length target)%nat
     || (originalLength data =? 0)
  then Normal Return17
  else
    first ← must (bnd !! 1%nat);
    matchWord pinyin bnd target first.1 first.2 startIndex.

(** Modelled from the spec: the BoundaryMap collaborator ([boundary.ts]
    is not part of the sources) for the identity transliteration, where
    every character is its own one-letter reading.  The boundary table
    has one entry per letter after a leading sentinel; the entry of a
    letter holds the index of its character and the offset at which the
    reading of that character starts. *)
Definition identityMapping (s : list N) : SourceMappingData :=
  let n := length s in
  {| originalString := s;
     originalLength := Z.of_nat n;
     pinyinString := s;
     boundary := (-1, -1) :: map (fun i => (Z.of_nat i, Z.of_nat i)) (seq 0 n);
     originalIndices := map Z.of_nat (seq 0 (S n)) |}.

(** ** The literal fast path, lines 166 to 169

    The function returns [~startIndex && [[...]]]: the number 0, which is
    falsy, when [indexOf] answers [-1], and the one-range matrix
    otherwise.  Both callers only test the result for truth, so the
    falsy 0 is [None] here. *)
Definition searchWithIndexof (source target : list N) : option Matrix :=
  let startIndex := Js.indexOf source (Js.trim target) in
  if startIndex =? -1 then None
  else Some [(startIndex, startIndex + Z.of_nat (length target) - 1)].

(** ** The sentence level, lines 140 to 173

    [getRestRanges] ([utils.ts]) is not part of the sources: it is a
    parameter of the embedding. *)

Section Sentence.

Variable getRestRanges : Z -> Matrix -> Matrix.

(** Lines 152 to 159: the first range in which the word is found. *)
Fixpoint tryRanges (data : SourceMappingData) (word : list N) (restRanges : Matrix)
    : Completion (option Matrix) :=
  match restRanges with
  | [] => Normal None
  | range :: rest =>
      r ← searchByBoundaryMapping data word range.1 range.2;
      match valueOf r with
      | Some hitRangesByWord => Normal (Some hitRangesByWord)
      | None => tryRanges data word rest
      end
  end.

(** Lines 148 to 161: the loop over the words, with the ranges claimed
    so far. *)
Fixpoint placeWords (data : SourceMappingData) (words : list (list N)) (hitRanges : Matrix)
    : Completion (option Matrix) :=
  match words with
  | [] => Normal (Some hitRanges)
  | word :: rest =>
      let restRanges := getRestRanges (originalLength data) hitRanges in
      if (length restRanges =? 0)%nat then Normal None
      else
        found ← tryRanges data word restRanges;
        match found with
        | None => Normal None
        | Some hitRangesByWord => placeWords data rest (hitRanges ++ hitRangesByWord)
        end
  end.

Definition searchSentenceByBoundaryMapping (boundaryMapping : SourceMappingData)
    (sentence : list N) : Completion (option Matrix) :=
  if (length sentence =? 0)%nat then Normal None
  else
    match searchWithIndexof (originalString boundaryMapping) sentence with
    | Some hitRangesByIndexOf => Normal (Some hitRangesByIndexOf)
    | None =>
        placeWords boundaryMapping (Js.splitWhiteSpace (Js.trim sentence)) []
    end.

Definition searchEntry (source target : list N)
    (getBoundaryMapping : list N -> SourceMappingData) : Completion (option Matrix) :=
  match searchWithIndexof source target with
  | Some hit => Normal (Some hit)
  | None => searchSentenceByBoundaryMapping (getBoundaryMapping source) target
  end.

End Sentence.

(** Modelled from the spec: the mapping of a string of one character
    that has the two readings "de" and "di" (the example of the comment
    of line 80); both readings belong to the character 0, the first one
    starts at the offset 0 of the transliteration and the second one at
    the offset 2. *)
Definition deDi : SourceMappingData :=
  {| originalString := [30340%N];
     originalLength := 1;
     pinyinString := Js.ofString "dedi";
     boundary := [(-1, -1); (0, 0); (0, 0); (0, 2); (0, 2)];
     originalIndices := [0; 4] |}.

(** Modelled from the spec: the mapping of the five characters "deie"
    followed by the character of [deDi], with the same layout: the four
    Latin letters are their own readings, and the character 4 has the
    reading "de" at the offsets 4 and 5 of the transliteration and the
    reading "di" at the offsets 6 and 7. *)
Definition deieDeDi : SourceMappingData :=
  {| originalString := Js.ofString "deie" ++ [30340%N];
     originalLength := 5;
     pinyinString := Js.ofString "deiededi";
     boundary := [(-1, -1); (0, 0); (1, 1); (2, 2); (3, 3);
                  (4, 4); (4, 4); (4, 6); (4, 6)];
     originalIndices := [0; 1; 2; 3; 4; 8] |}.

(** The letters of the transliteration whose boundary entry is [b]: the
    letters of one reading of one character. *)
Definition lettersOfReading (d : SourceMappingData) (b : Z * Z) : list N :=
  map fst
    (List.filter (fun x : N * (Z * Z) => (x.2.1 =? b.1) && (x.2.2 =? b.2))
       (zip (pinyinString d) (tail (boundary d)))).

(** Modelled from the spec: the RangeUtility collaborator
    [getRestRanges(totalLength, claimedRanges)] ([utils.ts] is not part
    of the sources), "disjoint ranges not covered by claimedRanges,
    sorted left to right, within [0, totalLength)".  A pair [(a, b)]
    delimits the characters [a .. b - 1], the way line 13 slices the
    transliteration between [originalIndices[a]] and
    [originalIndices[b]].  It is used to instantiate the parameter of
    the sentence level on concrete inputs. *)
Module RangeUtility.

Definition claimed (claimedRanges : Matrix) (i : Z) : bool :=
  existsb (fun c => (c.1 <=? i) && (i <=? c.2)) claimedRanges.

(** [runs claimedRanges n i open]: the maximal runs of unclaimed
    characters among the [n] characters from [i] on; [open] is the
    start of the run being read. *)
Fixpoint runs (claimedRanges : Matrix) (n : nat) (i : Z) (open : option Z) : Matrix :=
  match n with
  | O => match open with Some a => [(a, i)] | None => [] end
  | S n' =>
      if claimed claimedRanges i then
        match open with
        | Some a => (a, i) :: runs claimedRanges n' (i + 1) None
        | None => runs claimedRanges n' (i + 1) None
        end
      else
        runs claimedRanges n' (i + 1)
             (match open with Some a => Some a | None => Some i end)
  end.

Definition getRestRanges (totalLength : Z) (claimedRanges : Matrix) : Matrix :=
  runs claimedRanges (Z.to_nat totalLength) 0 None.

End RangeUtility.

(** * Specification vocabulary *)

(** [Subseq ts ps]: the letters of [ts] occur in [ps] in order. *)
Inductive Subseq : list N -> list N -> Prop :=
| Subseq_nil ps : Subseq [] ps
| Subseq_take t ts ps : Subseq ts ps -> Subseq (t :: ts) (t :: ps)
| Subseq_skip c ts ps : Subseq ts ps -> Subseq ts (c :: ps).

(** [occursAt s w i]: [w] is the contiguous piece of [s] that starts at
    position [i]. *)
Definition occursAt (s w : list N) (i : Z) : Prop :=
  exists pre post, s = pre ++ w ++ post /\ Z.of_nat (length pre) = i.

(** [leftmostAt s w i]: the leftmost occurrence of [w] in [s] is at [i]. *)
Definition leftmostAt (s w : list N) (i : Z) : Prop :=
  occursAt s w i /\ forall j, occursAt s w j -> i <= j.

(** A query without letters: empty or made of white space only. *)
Definition blank (q : list N) : Prop := Forall (fun c => Js.isWhiteSpace c = true) q.

(** Two inclusive ranges without a common position. *)
Definition disjoint (r r' : Z * Z) : Prop := r.2 < r'.1 \/ r'.2 < r.1.

(** The alignment invariants of a [SourceMappingData] (section 3 of the
    specification), with the layout [search.ts] relies on: [boundary]
    has a leading sentinel, so that [boundary[k + 1]] is the entry of
    the letter at offset [k] of [pinyinString], and the first component
    of an entry is the index of the character the letter belongs to;
    [originalIndices[i]] is the offset at which the letters of character
    [i] start, with one more entry for the end of the transliteration. *)
Record wf_data (d : SourceMappingData) : Prop := {
  wf_boundary_length :
    length (boundary d) = S (length (pinyinString d));
  wf_indices_length :
    Z.of_nat (length (originalIndices d)) = originalLength d + 1;
  wf_indices_bounds : forall (i : nat) o,
    originalIndices d !! i = Some o ->
    0 <= o <= Z.of_nat (length (pinyinString d));
  wf_indices_mono : forall (i j : nat) a b,
    (i <= j)%nat ->
    originalIndices d !! i = Some a -> originalIndices d !! j = Some b ->
    a <= b;
  wf_boundary_mono : forall (p q : nat) x y,
    (p <= q)%nat ->
    boundary d !! p = Some x -> boundary d !! q = Some y ->
    x.1 <= y.1 /\ x.2 <= y.2;
  wf_alignment : forall (i j k : nat) a b x,
    originalIndices d !! i = Some a -> originalIndices d !! j = Some b ->
    a <= Z.of_nat k < b ->
    boundary d !! S k = Some x ->
    Z.of_nat i <= x.1 < Z.of_nat j
}.

(** A sub-range of the original characters. *)
Definition validRange (d : SourceMappingData) (startIndex endIndex : Z) : Prop :=
  0 <= startIndex /\ startIndex <= endIndex /\ endIndex <= originalLength d.

(** The contract of [getRestRanges] that the sentence level relies on:
    the ranges lie inside the string, and no character of a range is
    inside a claimed range. *)
Record restRangesContract (getRestRanges : Z -> Matrix -> Matrix) : Prop := {
  rest_within : forall n claimedRanges r,
    r ∈ getRestRanges n claimedRanges -> 0 <= r.1 /\ r.1 <= r.2 /\ r.2 <= n;
  rest_unclaimed : forall n claimedRanges r c i,
    r ∈ getRestRanges n claimedRanges -> c ∈ claimedRanges ->
    r.1 <= i < r.2 -> ~ (c.1 <= i <= c.2)
}.

(** [Placed getRestRanges d words claimedRanges perWord]: the words are
    placed one after the other, each by the matcher of one word inside a
    range that [getRestRanges] leaves when the ranges of the words
    before it are claimed; [perWord] lists the ranges of each word. *)
Inductive Placed (getRestRanges : Z -> Matrix -> Matrix) (d : SourceMappingData)
  : list (list N) -> Matrix -> list Matrix -> Prop :=
| Placed_nil claimedRanges : Placed getRestRanges d [] claimedRanges []
| Placed_cons word words claimedRanges r hit perWord :
    r ∈ getRestRanges (originalLength d) claimedRanges ->
    searchByBoundaryMapping d word r.1 r.2 = Normal (Return137 hit) ->
    Placed getRestRanges d words (claimedRanges ++ hit) perWord ->
    Placed getRestRanges d (word :: words) claimedRanges (hit :: perWord).

(** The ranges of two distinct words have no common position. *)
Definition pairwiseDisjoint (perWord : list Matrix) : Prop :=
  forall (i j : nat) hi hj x y,
    (i < j)%nat -> perWord !! i = Some hi -> perWord !! j = Some hj ->
    x ∈ hi -> y ∈ hj -> disjoint x y.

(** A normal return: neither an exception nor a loop without end. *)
Definition returns {A} (c : Completion A) : Prop := exists a, c = Normal a.

(** ** Invariants of the scoring DP

    [P] is the length of the transliteration slice, [Q] the length of
    the word, [limit] an upper bound of the character offsets of the
    slice.  Letters are numbered in [Z] so that "no letter yet" is [-1]. *)

Section Invariants.

Variables (bnd : list (Z * Z)) (startBoundary : Z) (P Q : nat) (limit : Z).

(** The three arrays have [P + 1] positions and every path row has [Q]
    cells (lines 39 to 41). *)
Record Shape (st : DpState) : Prop := {
  shape_table : length (dpTable st) = S P;
  shape_scores : length (dpScores st) = S P;
  shape_path : length (dpMatchPath st) = S P;
  shape_rows : forall (q : nat) row, dpMatchPath st !! q = Some row -> length row = Q
}.

(** The letter [k] has a path cell in the last row, the one the
    backtracking reads. *)
Definition colDef (path : list (list (option PathCell))) (k : Z) : Prop :=
  exists row cell, path !! P = Some row /\ cellAt row k = Some cell.

(** The character offset of position [q], [-1] before the first one. *)
Definition charOffset (q : nat) : Z :=
  match q with
  | O => -1
  | S _ => match bnd !! q with
           | Some b => b.1 - startBoundary
           | None => -1
           end
  end.

(** An entry of [dpTable] at position [q] written while the letter [j]
    was the current one: it counts at most [j + 1] letters, its run of
    characters fits before its character, which is not after the one
    of [q], and the letter before its run has a path cell. *)
Definition goodItem (D : Z -> Prop) (j : Z) (q : nat) (it : Item) : Prop :=
  let '(matchedStrings, matchedLetters, boundaryStart, _) := it in
  0 <= matchedStrings /\ matchedStrings <= boundaryStart + 1
  /\ boundaryStart <= charOffset q
  /\ 0 <= matchedLetters <= j + 1
  /\ (1 <= matchedLetters -> matchedLetters = j + 1 \/ D (j - matchedLetters)).

(** A score written while the letter [j] was the current one. *)
Definition goodScore (D : Z -> Prop) (j : Z) (s : Z) : Prop :=
  0 <= s /\ (0 < s -> D j).

(** A path cell of the letter [j]. *)
Definition goodCell (D : Z -> Prop) (j : Z) (c : PathCell) : Prop :=
  let '(start, end_, matchedLetters) := c in
  0 <= start /\ start <= end_ /\ end_ <= limit
  /\ 1 <= matchedLetters <= j + 1
  /\ (matchedLetters = j + 1 \/ D (j - matchedLetters)).

(** The state between two turns of the outer loop, the letters up to
    [j] being done; only the positions from [lo] on are read later. *)
Record Done (j : Z) (lo : nat) (st : DpState) : Prop := {
  done_shape : Shape st;
  done_cols : forall k row c,
    k <= j -> dpMatchPath st !! P = Some row -> cellAt row k = Some c ->
    goodCell (colDef (dpMatchPath st)) k c;
  done_fresh : forall (q : nat) row k,
    j < k -> dpMatchPath st !! q = Some row -> cellAt row k = None;
  done_zone : forall (q : nat) it s,
    (lo <= q)%nat -> dpTable st !! q = Some it -> dpScores st !! q = Some s ->
    goodItem (colDef (dpMatchPath st)) j q it
    /\ goodScore (colDef (dpMatchPath st)) j s
}.

(** The state before the turn of the inner loop at position [p], for
    the letter [m]: the positions from [lo] to [p - 1] hold the values
    of this letter, the positions from [p] on and the cached pair
    [current] those of the letter before. *)
Record Mid (m lo p : nat) (current : Item * Z) (st : DpState) : Prop := {
  mid_shape : Shape st;
  mid_order : (lo < p)%nat;
  mid_cols : forall k row c,
    k < Z.of_nat m -> dpMatchPath st !! P = Some row -> cellAt row k = Some c ->
    goodCell (colDef (dpMatchPath st)) k c;
  mid_fresh : forall (q : nat) row k,
    Z.of_nat m < k -> dpMatchPath st !! q = Some row -> cellAt row k = None;
  mid_old : forall (q : nat) it s,
    (p <= q)%nat -> dpTable st !! q = Some it -> dpScores st !! q = Some s ->
    goodItem (colDef (dpMatchPath st)) (Z.of_nat m - 1) q it
    /\ goodScore (colDef (dpMatchPath st)) (Z.of_nat m - 1) s;
  mid_current :
    goodItem (colDef (dpMatchPath st)) (Z.of_nat m - 1) (p - 1) current.1
    /\ goodScore (colDef (dpMatchPath st)) (Z.of_nat m - 1) current.2;
  mid_new : forall (q : nat) it s row,
    (lo <= q < p)%nat ->
    dpTable st !! q = Some it -> dpScores st !! q = Some s ->
    dpMatchPath st !! q = Some row ->
    goodItem (colDef (dpMatchPath st)) (Z.of_nat m) q it
    /\ 0 <= s
    /\ (forall s', dpScores st !! (p - 1)%nat = Some s' -> s <= s')
    /\ (forall c, cellAt row (Z.of_nat m) = Some c ->
                  goodCell (colDef (dpMatchPath st)) (Z.of_nat m) c);
  mid_front : forall s row,
    dpScores st !! (p - 1)%nat = Some s -> dpMatchPath st !! (p - 1)%nat = Some row ->
    0 < s -> exists c, cellAt row (Z.of_nat m) = Some c
}.

(** What the matcher needs of the boundary slice: one entry per
    position after the leading one, character indices that do not
    decrease and stay within [limit] of the first. *)
Record wf_slice (pinyinLength : nat) : Prop := {
  slice_length : length bnd = S pinyinLength;
  slice_first : exists b, bnd !! 1%nat = Some b /\ b.1 = startBoundary;
  slice_mono : forall (p q : nat) x y,
    (1 <= p <= q)%nat -> bnd !! p = Some x -> bnd !! q = Some y -> x.1 <= y.1;
  slice_limit : forall (p : nat) x,
    (1 <= p)%nat -> bnd !! p = Some x -> x.1 - startBoundary <= limit
}.

End Invariants.

(** The anchors of the greedy pass: positions below [P] that increase
    strictly, the first one being at least [lo]. *)
Fixpoint anchored (P lo : nat) (matchPositions : list nat) : Prop :=
  match matchPositions with
  | [] => True
  | x :: rest => (lo <= x)%nat /\ (x < P)%nat /\ anchored P (S x) rest
  end.

(** ** Vocabulary of the further properties *)

(** The characters that a matrix covers, ranges counted with their
    inclusive ends. *)
Definition covered (m : Matrix) : Z :=
  foldr (fun r n => r.2 - r.1 + 1 + n) 0 m.

(** A code unit that is not white space. *)
Definition notWhiteSpace (c : N) : Prop := Js.isWhiteSpace c = false.

(** A word as line 8 of the source wants it for the matcher: not empty
    and without white space. *)
Definition plainWord (w : list N) : Prop := w <> [] /\ Forall notWhiteSpace w.

(** The piece [cur] that [splitLoop] is reading and the rest [s] of the
    string: white space does not come first, and does not come last. *)
Definition startsPlain (cur s : list N) (sep : bool) : Prop :=
  sep = false -> cur = [] ->
  match s with
  | c :: _ => notWhiteSpace c
  | [] => True
  end.

Definition endsPlain (cur s : list N) : Prop :=
  match reverse s with
  | c :: _ => notWhiteSpace c
  | [] => cur <> []
  end.

(** An entry of [dpTable] counts no more characters than letters, and a
    path cell spans no more characters than it counts letters. *)
Definition leanItem (it : Item) : Prop :=
  let '(matchedStrings, matchedLetters, _, _) := it in matchedStrings <= matchedLetters.

Definition leanCell (c : option PathCell) : Prop :=
  match c with
  | Some (start, end_, matchedLetters) => end_ - start + 1 <= matchedLetters
  | None => True
  end.

Record Lean (st : DpState) : Prop := {
  lean_table : Forall leanItem (dpTable st);
  lean_path : Forall (Forall leanCell) (dpMatchPath st)
}.

(** The position [p] of the slice opens a reading with the letter [c]:
    the letter at [p] is [c] and it is the first letter of its reading
    (the two tests of lines 73 and 84 for a word of one letter). *)
Definition opens (pinyin : list N) (bnd : list (Z * Z)) (endBoundary : Z) (c : N)
    (p : nat) : bool :=
  match bnd !! p with
  | Some b =>
      Js.strictEq (Js.at_ pinyin (Z.of_nat p - 1)) (Some c)
      && (Z.of_nat p - 1 =? b.2 - endBoundary)
  | None => false
  end.

(** The first of the [n] positions from [p] on that opens a reading
    with [c]. *)
Fixpoint firstOpening (pinyin : list N) (bnd : list (Z * Z)) (endBoundary : Z) (c : N)
    (n p : nat) : option nat :=
  match n with
  | O => None
  | S n' =>
      if opens pinyin bnd endBoundary c p then Some p
      else firstOpening pinyin bnd endBoundary c n' (S p)
  end.

(** The state of the pass of a word of one letter before the turn at
    position [p]: the positions from [p] on are untouched, and position
    [p - 1] holds the score 1 and the cell [found] once a reading has
    been opened, the score 0 and no cell before. *)
Record OneLetter (p : nat) (found : option PathCell) (current : Item * Z)
    (st : DpState) : Prop := {
  one_current : current = (defaultDpTableValue, 0);
  one_table : forall (q : nat) it,
    (p <= q)%nat -> dpTable st !! q = Some it -> it = defaultDpTableValue;
  one_scores : forall (q : nat) s,
    (p <= q)%nat -> dpScores st !! q = Some s -> s = 0;
  one_left_score : forall s,
    dpScores st !! (p - 1)%nat = Some s ->
    s = match found with Some _ => 1 | None => 0 end;
  one_left_cell : forall row,
    dpMatchPath st !! (p - 1)%nat = Some row -> cellAt row 0 = found
}.

(** The path cell of a word of one letter matched at position [p]: one
    character, one letter. *)
Definition cellOf (bnd : list (Z * Z)) (startBoundary : Z) (p : nat) : option PathCell :=
  match bnd !! p with
  | Some b => Some (b.1 - startBoundary, b.1 - startBoundary, 1)
  | None => None
  end.

(** The cell found after [n] more positions from [p] on. *)
Definition foundAfter (pinyin : list N) (bnd : list (Z * Z)) (startBoundary endBoundary : Z)
    (c : N) (found : option PathCell) (n p : nat) : option PathCell :=
  match found with
  | Some _ => found
  | None =>
      match firstOpening pinyin bnd endBoundary c n p with
      | Some p1 => cellOf bnd startBoundary p1
      | None => None
      end
  end.

(** The letters of a list of words, counted together. *)
Definition letters (words : list (list N)) : Z :=
  foldr (fun w n => Z.of_nat (length w) + n) 0 words.

(** * Proofs *)

(** ** JavaScript primitives *)

Lemma at_nat {A} (a : list A) (i : nat) : Js.at_ a (Z.of_nat i) = a !! i.
Proof.
  unfold Js.at_. destruct (Z.ltb_spec (Z.of_nat i) 0); [lia|].
  by rewrite Nat2Z.id.
Qed.

Lemma set_lookup_eq {A} (hole : A) (i : nat) v (a : list A) :
  Js.set hole i v a !! i = Some v.
Proof.
  unfold Js.set. destruct (Nat.ltb_spec i (length a)).
  - by apply list_lookup_insert_eq.
  - rewrite lookup_app_r by lia.
    rewrite lookup_app_r; rewrite length_replicate; [|lia].
    by replace (i - length a - (i - length a))%nat with 0%nat by lia.
Qed.

Lemma set_in_range {A} (hole : A) (i : nat) v (a : list A) :
  (i < length a)%nat -> Js.set hole i v a = <[i := v]> a.
Proof.
  intros H. unfold Js.set. destruct (Nat.ltb_spec i (length a)); [done|lia].
Qed.

Lemma set_lookup_ne {A} (hole : A) (i j : nat) v (a : list A) :
  (i < length a)%nat -> i <> j -> Js.set hole i v a !! j = a !! j.
Proof.
  intros H Hne. rewrite set_in_range by done. by apply list_lookup_insert_ne.
Qed.

Lemma set_length {A} (hole : A) (i : nat) v (a : list A) :
  (i < length a)%nat -> length (Js.set hole i v a) = length a.
Proof.
  intros H. rewrite set_in_range by done. apply length_insert.
Qed.

Lemma cellAt_set_eq (m : nat) c row :
  cellAt (Js.set None m c row) (Z.of_nat m) = c.
Proof. unfold cellAt. by rewrite at_nat, set_lookup_eq. Qed.

Lemma cellAt_set_ne (m : nat) c row k :
  (m < length row)%nat -> k <> Z.of_nat m ->
  cellAt (Js.set None m c row) k = cellAt row k.
Proof.
  intros Hm Hk. unfold cellAt, Js.at_.
  destruct (Z.ltb_spec k 0); [done|].
  rewrite set_lookup_ne; [done|done|lia].
Qed.

Lemma length_slice {A} (a : list A) (lo hi : Z) :
  0 <= lo -> lo <= hi -> hi <= Z.of_nat (length a) ->
  length (Js.slice a lo hi) = Z.to_nat (hi - lo).
Proof.
  intros H1 H2 H3. unfold Js.slice, Js.relIndex.
  destruct (Z.ltb_spec lo 0), (Z.ltb_spec hi 0); try lia.
  rewrite length_take, length_drop. lia.
Qed.

Lemma lookup_slice {A} (a : list A) (lo hi : Z) (i : nat) :
  0 <= lo -> lo <= hi -> hi <= Z.of_nat (length a) ->
  (i < Z.to_nat (hi - lo))%nat ->
  Js.slice a lo hi !! i = a !! (Z.to_nat lo + i)%nat.
Proof.
  intros H1 H2 H3 Hi. unfold Js.slice, Js.relIndex.
  destruct (Z.ltb_spec lo 0), (Z.ltb_spec hi 0); try lia.
  rewrite lookup_take_lt by lia.
  rewrite lookup_drop. f_equal. lia.
Qed.

(** ** The literal fast path *)

Lemma startsWith_spec s t :
  Js.startsWith s t = true <-> exists post, s = t ++ post.
Proof.
  revert s. induction t as [|b t IH]; intros s; simpl.
  - split; [eauto|done].
  - destruct s as [|a s].
    + split; [done|]. intros [post H]. discriminate.
    + rewrite andb_true_iff, N.eqb_eq, IH. split.
      * intros [-> [post ->]]. eauto.
      * intros [post H]. injection H as -> ->. eauto.
Qed.

Lemma occursAt_nonneg s w i : occursAt s w i -> 0 <= i.
Proof. intros (pre & post & _ & <-). lia. Qed.

Lemma occursAt_zero s w : occursAt s w 0 <-> Js.startsWith s w = true.
Proof.
  rewrite startsWith_spec. split.
  - intros (pre & post & -> & Hlen). destruct pre; [|simpl in Hlen; lia]. eauto.
  - intros [post ->]. by exists [], post.
Qed.

Lemma occursAt_cons c s w i :
  0 < i -> occursAt (c :: s) w i <-> occursAt s w (i - 1).
Proof.
  intros Hi. split.
  - intros (pre & post & Heq & Hlen). destruct pre as [|c' pre]; [simpl in Hlen; lia|].
    injection Heq as -> ->. exists pre, post. split; [done|]. simpl in Hlen. lia.
  - intros (pre & post & -> & Hlen). exists (c :: pre), post. split; [done|].
    simpl. lia.
Qed.

Lemma indexOfFrom_found s w i k :
  occursAt s w k ->
  exists k0, leftmostAt s w k0 /\ Js.indexOfFrom i s w = i + k0.
Proof.
  revert i k. induction s as [|c s IH]; intros i k Hocc; simpl.
  - destruct (Js.startsWith [] w) eqn:Hsw.
    + exists 0. split; [|lia]. split; [by apply occursAt_zero|].
      intros j Hj. by eapply occursAt_nonneg.
    + destruct Hocc as (pre & post & Heq & _).
      destruct pre, w; try discriminate.
  - destruct (Js.startsWith (c :: s) w) eqn:Hsw.
    + exists 0. split; [|lia]. split; [by apply occursAt_zero|].
      intros j Hj. by eapply occursAt_nonneg.
    + assert (Hpos : forall j, occursAt (c :: s) w j -> 0 < j).
      { intros j Hj. pose proof (occursAt_nonneg _ _ _ Hj).
        destruct (decide (j = 0)) as [->|]; [|lia].
        apply occursAt_zero in Hj. congruence. }
      pose proof (Hpos _ Hocc) as Hk.
      apply occursAt_cons in Hocc; [|done].
      destruct (IH (i + 1) _ Hocc) as (k0 & [Hk0 Hleast] & Heq).
      exists (k0 + 1). split; [|lia]. split.
      * apply occursAt_cons; [pose proof (occursAt_nonneg _ _ _ Hk0); lia|].
        by replace (k0 + 1 - 1) with k0 by lia.
      * intros j Hj. pose proof (Hpos _ Hj).
        apply occursAt_cons in Hj; [|done]. specialize (Hleast _ Hj). lia.
Qed.

Lemma trimStart_blank q : blank q -> Js.trimStart q = [].
Proof.
  induction 1 as [|c q Hc _ IH]; simpl; [done|]. by rewrite Hc.
Qed.

Lemma trim_blank q : blank q -> Js.trim q = [].
Proof.
  intros H. unfold Js.trim, Js.trimEnd. by rewrite (trimStart_blank q H).
Qed.

(** The fast path answers a blank query with the range that starts at 0
    and has the length of the query. *)
Lemma searchWithIndexof_blank source q :
  blank q ->
  searchWithIndexof source q = Some [(0, 0 + Z.of_nat (length q) - 1)].
Proof.
  intros H. unfold searchWithIndexof. rewrite (trim_blank q H).
  unfold Js.indexOf. by destruct source.
Qed.

Lemma searchWithIndexof_literal source w k :
  Js.trim w = w -> occursAt source w k ->
  exists i, leftmostAt source w i
            /\ searchWithIndexof source w = Some [(i, i + Z.of_nat (length w) - 1)].
Proof.
  intros Htrim Hocc. unfold searchWithIndexof, Js.indexOf. rewrite Htrim.
  destruct (indexOfFrom_found source w 0 k Hocc) as (i & Hleft & ->).
  exists i. split; [done|].
  pose proof (occursAt_nonneg _ _ _ (proj1 Hleft)).
  destruct (Z.eqb_spec (0 + i) (-1)); [lia|]. by rewrite Z.add_0_l.
Qed.

(** C1, for pieces without white space at their ends: for a source [S]
    and a non-empty contiguous piece [W] of it that neither begins nor
    ends with white space, [searchEntry] returns
    the matrix of the single range [[i, i + length W - 1]], where [i] is
    the leftmost position at which [W] occurs in [S], whatever the
    boundary-map provider and the range utility are. *)
Theorem searchEntry_literal getRestRanges (S W : list N)
    (getBoundaryMapping : list N -> SourceMappingData) (k : Z) :
  W <> [] ->
  Js.trim W = W ->
  occursAt S W k ->
  exists i, leftmostAt S W i
            /\ searchEntry getRestRanges S W getBoundaryMapping
               = Normal (Some [(i, i + Z.of_nat (length W) - 1)]).
Proof.
  intros _ Htrim Hocc.
  destruct (searchWithIndexof_literal S W k Htrim Hocc) as (i & Hleft & Heq).
  exists i. split; [done|]. unfold searchEntry. by rewrite Heq.
Qed.

Lemma searchEntry_literal_witness :
  exists i, leftmostAt (Js.ofString "no_node") (Js.ofString "nod") i
            /\ searchEntry RangeUtility.getRestRanges (Js.ofString "no_node")
                 (Js.ofString "nod") identityMapping
               = Normal (Some [(i, i + 3 - 1)]).
Proof.
  apply (searchEntry_literal RangeUtility.getRestRanges (Js.ofString "no_node")
           (Js.ofString "nod") identityMapping 3).
  - discriminate.
  - reflexivity.
  - exists (Js.ofString "no_"), (Js.ofString "e"). split; reflexivity.
Defined.

(** C1 does not hold for every piece: in the source "a b" the piece
    " b" occurs leftmost at position 1, and [searchEntry] returns the
    range [[2, 3]], not [[1, 2]]. *)
Lemma searchEntry_literal_counterexample :
  ~ (forall getRestRanges (S W : list N) getBoundaryMapping i,
        leftmostAt S W i ->
        searchEntry getRestRanges S W getBoundaryMapping
        = Normal (Some [(i, i + Z.of_nat (length W) - 1)])).
Proof.
  intros H.
  specialize (H RangeUtility.getRestRanges (Js.ofString "a b") (Js.ofString " b")
                identityMapping 1).
  assert (Hleft : leftmostAt (Js.ofString "a b") (Js.ofString " b") 1).
  { split.
    - exists (Js.ofString "a"), []. split; reflexivity.
    - intros j Hj. pose proof (occursAt_nonneg _ _ _ Hj).
      destruct (decide (j = 0)) as [->|]; [|lia].
      apply occursAt_zero in Hj. discriminate. }
  specialize (H Hleft). vm_compute in H. discriminate.
Qed.

(** C2, the code at blank queries: [searchEntry] answers the empty query
    with the range [[0, -1]] and a query of one space with [[0, 0]];
    [searchSentenceByBoundaryMapping] returns no-match for the empty
    query and answers a query of one space with [[0, 0]]. *)
Theorem blank_query_answers getRestRanges (getBoundaryMapping : list N -> SourceMappingData) :
  searchEntry getRestRanges (Js.ofString "abc") (Js.ofString "") getBoundaryMapping
  = Normal (Some [(0, -1)])
  /\ searchEntry getRestRanges (Js.ofString "abc") (Js.ofString " ") getBoundaryMapping
     = Normal (Some [(0, 0)])
  /\ searchSentenceByBoundaryMapping getRestRanges
       (identityMapping (Js.ofString "abc")) (Js.ofString "")
     = Normal None
  /\ searchSentenceByBoundaryMapping getRestRanges
       (identityMapping (Js.ofString "abc")) (Js.ofString " ")
     = Normal (Some [(0, 0)]).
Proof. repeat split. Qed.

(** The same for every source and every blank query. *)
Lemma blank_query_general getRestRanges source q
    (getBoundaryMapping : list N -> SourceMappingData) (d : SourceMappingData) :
  blank q ->
  searchEntry getRestRanges source q getBoundaryMapping
  = Normal (Some [(0, 0 + Z.of_nat (length q) - 1)])
  /\ (q <> [] ->
      searchSentenceByBoundaryMapping getRestRanges d q
      = Normal (Some [(0, 0 + Z.of_nat (length q) - 1)])).
Proof.
  intros Hq. split.
  - unfold searchEntry. by rewrite searchWithIndexof_blank.
  - intros Hne. unfold searchSentenceByBoundaryMapping.
    destruct q; [done|]. simpl length at 1. simpl Nat.eqb.
    by rewrite searchWithIndexof_blank.
Qed.

(** C8: on the source "no_node" under the identity transliteration the
    word "nod" is matched by the single range of the characters 3 to 5,
    the contiguous occurrence inside "node"; the matcher of one word
    returns it for the whole string, and so does [searchEntry]. *)
Theorem no_node_nod getRestRanges :
  searchByBoundaryMapping (identityMapping (Js.ofString "no_node")) (Js.ofString "nod") 0 7
  = Normal (Return137 [(3, 5)])
  /\ searchEntry getRestRanges (Js.ofString "no_node") (Js.ofString "nod") identityMapping
     = Normal (Some [(3, 5)]).
Proof. split; reflexivity. Qed.

(** ** The greedy pass *)

Lemma scan_length_le i ps ts : (length (scan i ps ts) <= length ts)%nat.
Proof.
  revert i ts. induction ps as [|c ps IH]; intros i [|t ts]; simpl; try lia.
  destruct (N.eqb c t); simpl.
  - specialize (IH (S i) ts). lia.
  - specialize (IH (S i) (t :: ts)). simpl in IH. lia.
Qed.

Lemma scan_sound i ps ts :
  length (scan i ps ts) = length ts -> Subseq ts ps.
Proof.
  revert i ts. induction ps as [|c ps IH]; intros i [|t ts]; simpl; intros H;
    try discriminate; try apply Subseq_nil.
  destruct (N.eqb_spec c t) as [->|Hne]; simpl in H.
  - apply Subseq_take. apply (IH (S i)). lia.
  - apply Subseq_skip. by apply (IH (S i)).
Qed.

Lemma Subseq_tail t ts ps : Subseq (t :: ts) ps -> Subseq ts ps.
Proof.
  intros H. remember (t :: ts) as l eqn:Hl. revert t ts Hl.
  induction H; intros t' ts' Hl; try discriminate.
  - injection Hl as -> ->. by apply Subseq_skip.
  - apply Subseq_skip. by eapply IHSubseq.
Qed.

Lemma scan_complete i ps ts :
  Subseq ts ps -> length (scan i ps ts) = length ts.
Proof.
  revert i ts. induction ps as [|c ps IH]; intros i ts H.
  - inversion H; subst. reflexivity.
  - destruct ts as [|t ts]; [reflexivity|]. simpl.
    destruct (N.eqb_spec c t) as [->|Hne]; simpl.
    + f_equal. apply IH. inversion H; subst; [done|]. by eapply Subseq_tail.
    + apply (IH (S i) (t :: ts)). inversion H; subst; [congruence|done].
Qed.

(** The greedy pass finds an anchor for every letter exactly when the
    word is a subsequence of the slice. *)
Lemma scan_Subseq i ps ts :
  length (scan i ps ts) = length ts <-> Subseq ts ps.
Proof. split; [apply scan_sound|apply scan_complete]. Qed.

Lemma anchored_weaken P lo lo' mps :
  (lo' <= lo)%nat -> anchored P lo mps -> anchored P lo' mps.
Proof.
  destruct mps; simpl; [done|]. intros Hle (H1 & H2 & H3).
  repeat split; [lia|done..].
Qed.

Lemma scan_anchored i ps ts : anchored (i + length ps) i (scan i ps ts).
Proof.
  revert i ts. induction ps as [|c ps IH]; intros i [|t ts]; simpl; try done.
  destruct (N.eqb c t); simpl.
  - repeat split; [lia..|].
    replace (i + S (length ps))%nat with (S i + length ps)%nat by lia. apply IH.
  - replace (i + S (length ps))%nat with (S i + length ps)%nat by lia.
    eapply anchored_weaken; [|apply IH]. lia.
Qed.

(** ** The slices of a well-formed mapping *)

Lemma slices_of_wf d startIndex endIndex :
  wf_data d -> validRange d startIndex endIndex ->
  exists a b,
    originalIndices d !! Z.to_nat startIndex = Some a
    /\ originalIndices d !! Z.to_nat endIndex = Some b
    /\ 0 <= a /\ a <= b /\ b <= Z.of_nat (length (pinyinString d))
    /\ pinyinSlice d startIndex endIndex = Js.slice (pinyinString d) a b
    /\ boundarySlice d startIndex endIndex = Js.slice (boundary d) a (b + 1).
Proof.
  intros Hwf (H0 & Hse & Hn).
  pose proof (wf_indices_length d Hwf) as Hlen.
  destruct (lookup_lt_is_Some_2 (originalIndices d) (Z.to_nat startIndex)) as [a Ha]; [lia|].
  destruct (lookup_lt_is_Some_2 (originalIndices d) (Z.to_nat endIndex)) as [b Hb]; [lia|].
  exists a, b.
  pose proof (wf_indices_bounds d Hwf _ _ Ha).
  pose proof (wf_indices_bounds d Hwf _ _ Hb).
  assert (a <= b) by (eapply (wf_indices_mono d Hwf); [|done..]; lia).
  repeat split; try done; try lia.
  - unfold pinyinSlice, sliceFrom, Js.at_.
    destruct (Z.ltb_spec startIndex 0), (Z.ltb_spec endIndex 0); try lia.
    by rewrite Ha, Hb.
  - unfold boundarySlice, sliceFrom, Js.at_.
    destruct (Z.ltb_spec startIndex 0), (Z.ltb_spec endIndex 0); try lia.
    by rewrite Ha, Hb.
Qed.

Lemma slices_length d startIndex endIndex :
  wf_data d -> validRange d startIndex endIndex ->
  length (boundarySlice d startIndex endIndex)
  = S (length (pinyinSlice d startIndex endIndex)).
Proof.
  intros Hwf Hr.
  destruct (slices_of_wf d _ _ Hwf Hr) as (a & b & _ & _ & ? & ? & ? & -> & ->).
  pose proof (wf_boundary_length d Hwf).
  rewrite !length_slice by lia. lia.
Qed.

(** C3: for a well-formed mapping and a sub-range of its characters, a
    word that is not a subsequence of the transliteration slice of the
    sub-range gets no-match, and the function leaves by the guard of
    line 17 or by the test of line 33 that follows the greedy pass, that
    is, before the scoring DP starts. *)
Theorem not_subsequence_no_match d target startIndex endIndex :
  wf_data d -> validRange d startIndex endIndex ->
  ~ Subseq target (pinyinSlice d startIndex endIndex) ->
  searchByBoundaryMapping d target startIndex endIndex = Normal Return17
  \/ searchByBoundaryMapping d target startIndex endIndex = Normal Return33.
Proof.
  intros Hwf Hr Hns. unfold searchByBoundaryMapping.
  destruct (_ || _ || _) eqn:Hguard; [by left|right].
  apply orb_false_iff in Hguard as [Hguard _].
  apply orb_false_iff in Hguard as [Hq Hp].
  apply Nat.eqb_neq in Hq. apply Nat.ltb_ge in Hp.
  pose proof (slices_length d _ _ Hwf Hr) as Hlen.
  destruct (lookup_lt_is_Some_2 (boundarySlice d startIndex endIndex) 1) as [first ->]; [lia|].
  cbn [mbind Completion_bind must]. unfold matchWord.
  destruct (Nat.ltb_spec (length (scan 0 (pinyinSlice d startIndex endIndex) target))
              (length target)) as [|Hge]; [done|].
  exfalso. apply Hns. apply (scan_sound 0).
  pose proof (scan_length_le 0 (pinyinSlice d startIndex endIndex) target). lia.
Qed.

Lemma identityMapping_wf s : wf_data (identityMapping s).
Proof.
  assert (Hoi : forall (i : nat) o,
             map Z.of_nat (seq 0 (S (length s))) !! i = Some o ->
             o = Z.of_nat i /\ (i <= length s)%nat).
  { intros i o H. rewrite list_lookup_fmap in H.
    destruct (seq 0 (S (length s)) !! i) eqn:E; [|discriminate].
    apply lookup_seq in E as [-> ?]. injection H as <-. split; [done|lia]. }
  assert (Hb : forall (p : nat) x,
             ((-1, -1) :: map (fun i => (Z.of_nat i, Z.of_nat i)) (seq 0 (length s))) !! p
             = Some x ->
             x = (Z.of_nat p - 1, Z.of_nat p - 1)).
  { intros [|p] x H; simpl in H; [by injection H as <-|].
    rewrite list_lookup_fmap in H.
    destruct (seq 0 (length s) !! p) eqn:E; [|discriminate].
    apply lookup_seq in E as [-> ?]. injection H as <-. f_equal; lia. }
  split; simpl.
  - by rewrite length_map, length_seq.
  - rewrite length_map, length_seq. lia.
  - intros i o H. apply Hoi in H as [-> ?]. lia.
  - intros i j a b Hij Ha Hb'. apply Hoi in Ha as [-> ?]. apply Hoi in Hb' as [-> ?]. lia.
  - intros p q x y Hpq Hx Hy. apply Hb in Hx as ->. apply Hb in Hy as ->. simpl. lia.
  - intros i j k a b x Ha Hb' Hk Hx.
    apply Hoi in Ha as [-> ?]. apply Hoi in Hb' as [-> ?].
    apply (Hb (S k)) in Hx as ->. simpl. lia.
Qed.

Lemma not_subsequence_no_match_witness :
  searchByBoundaryMapping (identityMapping (Js.ofString "no_node")) (Js.ofString "dn") 0 7
  = Normal Return17
  \/ searchByBoundaryMapping (identityMapping (Js.ofString "no_node")) (Js.ofString "dn") 0 7
     = Normal Return33.
Proof.
  apply (not_subsequence_no_match (identityMapping (Js.ofString "no_node"))
           (Js.ofString "dn") 0 7).
  - apply identityMapping_wf.
  - unfold validRange. simpl. lia.
  - intros H. apply (scan_complete 0) in H. vm_compute in H. discriminate.
Defined.

(** ** One turn of the inner loop *)

Ltac read_must H :=
  repeat match type of H with
         | context [must ?o] =>
             let E := fresh "Eread" in
             destruct o eqn:E; cbn [mbind Completion_bind must] in H; [|discriminate H]
         end.

Section Step.

Variables (pinyin : list N) (bnd : list (Z * Z)) (target : list N).
Variables (startBoundary endBoundary : Z).

Local Abbreviation dpStep := (dpStep pinyin bnd target startBoundary endBoundary).
Local Abbreviation carryForward := (carryForward pinyin bnd startBoundary).
Local Abbreviation acceptExtension := (acceptExtension startBoundary endBoundary).
Local Abbreviation extends_ := (extends_ pinyin target startBoundary endBoundary).
Local Abbreviation extendedItem := (extendedItem startBoundary endBoundary).
Local Abbreviation extendedCell := (extendedCell startBoundary endBoundary).
Local Abbreviation isNewWord := (isNewWord startBoundary endBoundary).
Local Abbreviation isContinuation := (isContinuation pinyin target endBoundary).

Lemma setPath_Normal p m cell path path' :
  setPath p m cell path = Normal path' ->
  exists row, path !! p = Some row
              /\ path' = <[p := Js.set None m cell row]> path.
Proof.
  unfold setPath. intros H. read_must H. injection H as <-. eauto.
Qed.

Lemma leftPath_Normal p m path cell :
  leftPath p m path = Normal cell ->
  exists row, path !! (p - 1)%nat = Some row /\ cell = cellAt row (Z.of_nat m).
Proof.
  unfold leftPath. intros H. read_must H. injection H as <-. eauto.
Qed.

Lemma acceptExtension_Normal m p b prev prevScore st st' :
  acceptExtension m p b prev prevScore st = Normal st' ->
  exists leftScore row cell,
    dpScores st !! (p - 1)%nat = Some leftScore
    /\ dpMatchPath st !! p = Some row
    /\ (if leftScore <? extendedScore prev prevScore
        then cell = Some (extendedCell p b prev)
        else exists leftRow, dpMatchPath st !! (p - 1)%nat = Some leftRow
                             /\ cell = cellAt leftRow (Z.of_nat m))
    /\ st' = {| dpTable := <[p := extendedItem p b prev]> (dpTable st);
                dpScores := <[p := extendedScore prev prevScore]> (dpScores st);
                dpMatchPath := <[p := Js.set None m cell row]> (dpMatchPath st) |}.
Proof.
  unfold acceptExtension. intros H. read_must H.
  match type of H with
  | context [if ?c then _ else _] => destruct c eqn:Hlt
  end; cbn [mbind Completion_bind] in H.
  - destruct (setPath _ _ _ _) eqn:Hset; cbn [mbind Completion_bind] in H; try discriminate.
    apply setPath_Normal in Hset as (row & Hrow & ->). injection H as <-.
    eexists _, row, (Some (extendedCell p b prev)). rewrite Hlt. by split_and!.
  - destruct (leftPath _ _ _) eqn:Hleft; cbn [mbind Completion_bind] in H; try discriminate.
    destruct (setPath _ _ _ _) eqn:Hset; cbn [mbind Completion_bind] in H; try discriminate.
    apply setPath_Normal in Hset as (row & Hrow & ->). injection H as <-.
    apply leftPath_Normal in Hleft as (leftRow & HleftRow & ->).
    eexists _, row, (cellAt leftRow (Z.of_nat m)). rewrite Hlt. split_and!; eauto.
Qed.

Lemma carryForward_Normal m p b st st' :
  carryForward m p b st = Normal st' ->
  exists leftScore leftRow row leftItem keep,
    dpScores st !! (p - 1)%nat = Some leftScore
    /\ dpMatchPath st !! (p - 1)%nat = Some leftRow
    /\ dpMatchPath st !! p = Some row
    /\ dpTable st !! (p - 1)%nat = Some leftItem
    /\ keepsEntry pinyin bnd startBoundary p b leftItem = Normal keep
    /\ st' = {| dpTable := <[p := if keep then leftItem else defaultDpTableValue]>
                             (dpTable st);
                dpScores := <[p := leftScore]> (dpScores st);
                dpMatchPath := <[p := Js.set None m (cellAt leftRow (Z.of_nat m)) row]>
                                 (dpMatchPath st) |}.
Proof.
  unfold carryForward. intros H. read_must H.
  destruct (leftPath _ _ _) eqn:Hleft; cbn [mbind Completion_bind] in H; try discriminate.
  destruct (setPath _ _ _ _) eqn:Hset; cbn [mbind Completion_bind] in H; try discriminate.
  read_must H.
  destruct (keepsEntry _ _ _ _ _ _) eqn:Hkeep; cbn [mbind Completion_bind] in H;
    try discriminate.
  injection H as <-.
  apply setPath_Normal in Hset as (row & Hrow & ->).
  apply leftPath_Normal in Hleft as (leftRow & HleftRow & ->).
  eexists _, leftRow, row, _, _. by split_and!.
Qed.

Lemma dpStep_Normal m p prev prevScore st nextItem nextScore st' :
  dpStep m p (prev, prevScore) st = Normal (nextItem, nextScore, st') ->
  exists b leftScore,
    dpTable st !! p = Some nextItem
    /\ dpScores st !! p = Some nextScore
    /\ bnd !! p = Some b
    /\ dpScores st !! (p - 1)%nat = Some leftScore
    /\ (if extends_ m p b prev prevScore && (leftScore <=? extendedScore prev prevScore)
        then acceptExtension m p b prev prevScore st = Normal st'
        else carryForward m p b st = Normal st').
Proof.
  unfold dpStep. intros H. read_must H.
  match type of H with
  | context [if ?c then _ else _] => destruct c eqn:Hc
  end.
  - destruct (acceptExtension _ _ _ _ _ _) eqn:Hacc; cbn [mbind Completion_bind] in H;
      try discriminate.
    injection H as <- <- <-. eexists _, _. rewrite Hc. by split_and!.
  - destruct (carryForward _ _ _ _) eqn:Hcarry; cbn [mbind Completion_bind] in H;
      try discriminate.
    injection H as <- <- <-. eexists _, _. rewrite Hc. by split_and!.
Qed.

(** C5: when the turn at position [p] for the letter [m] accepts the
    extension (the condition of line 87 holds and the score passes the
    test of line 92), the score written at [p] is the running score of
    the predecessor plus twice its count of matched letters plus one;
    and for a letter after the first the running score of the
    predecessor is positive. *)
Theorem accepted_extension_score m p
    (prevMatchedStrings prevMatchedLetters prevBoundaryStart prevBoundaryEnd prevScore : Z)
    st nextItem nextScore st' b leftScore :
  let prev := (prevMatchedStrings, prevMatchedLetters, prevBoundaryStart, prevBoundaryEnd) in
  dpStep m p (prev, prevScore) st = Normal (nextItem, nextScore, st') ->
  bnd !! p = Some b ->
  dpScores st !! (p - 1)%nat = Some leftScore ->
  extends_ m p b prev prevScore && (leftScore <=? extendedScore prev prevScore) = true ->
  dpScores st' !! p = Some (prevScore + (2 * prevMatchedLetters + 1))
  /\ ((0 < m)%nat -> 0 < prevScore).
Proof.
  intros prev Hstep Hb Hleft Hacc.
  apply dpStep_Normal in Hstep as (b' & leftScore' & _ & Hnext & Hb' & Hleft' & Hbranch).
  assert (b' = b) as -> by congruence. assert (leftScore' = leftScore) as -> by congruence.
  rewrite Hacc in Hbranch.
  apply acceptExtension_Normal in Hbranch as (? & row & cell & _ & _ & _ & ->).
  split.
  - cbn [dpScores]. rewrite list_lookup_insert_eq by (by eapply lookup_lt_Some).
    unfold extendedScore, prev. f_equal. lia.
  - intros Hm. apply andb_true_iff in Hacc as [Hext _].
    unfold extends_ in Hext. apply andb_true_iff in Hext as [_ Hpos].
    apply orb_true_iff in Hpos as [Hz|Hpos].
    + apply Nat.eqb_eq in Hz. lia.
    + by apply Z.ltb_lt.
Qed.

(** C6: after the turn at position [p] for the letter [m], the score
    at [p] is the score of the extension only if the extension is
    admissible and its score is greater than or equal to the score
    recorded so far for this letter, which is the one of position
    [p - 1]; otherwise [p] inherits that recorded score.  The path cell
    of [p] is the cell of the extension only if its score is strictly
    greater; in every other case, equal scores included, it is the cell
    found earlier, the one of [p - 1]. *)
Theorem overwrite_rule m p prev prevScore st nextItem nextScore st' b leftScore leftRow :
  dpStep m p (prev, prevScore) st = Normal (nextItem, nextScore, st') ->
  bnd !! p = Some b ->
  dpScores st !! (p - 1)%nat = Some leftScore ->
  dpMatchPath st !! (p - 1)%nat = Some leftRow ->
  let score := extendedScore prev prevScore in
  let admissible := extends_ m p b prev prevScore in
  dpScores st' !! p
  = Some (if admissible && (leftScore <=? score) then score else leftScore)
  /\ exists row',
      dpMatchPath st' !! p = Some row'
      /\ cellAt row' (Z.of_nat m)
         = if admissible && (leftScore <? score)
           then Some (extendedCell p b prev)
           else cellAt leftRow (Z.of_nat m).
Proof.
  intros Hstep Hb Hleft HleftRow score admissible.
  apply dpStep_Normal in Hstep as (b' & leftScore' & _ & Hnext & Hb' & Hleft' & Hbranch).
  assert (b' = b) as -> by congruence. assert (leftScore' = leftScore) as -> by congruence.
  fold score admissible in Hbranch.
  destruct admissible; cbn [andb] in *.
  - destruct (Z.leb_spec leftScore score) as [Hle|Hgt].
    + apply acceptExtension_Normal in Hbranch
        as (leftScore' & row & cell & Hleft'' & Hrow & Hcell & ->).
      assert (leftScore' = leftScore) as -> by congruence. fold score in Hcell.
      split; [cbn [dpScores]; by rewrite list_lookup_insert_eq by (by eapply lookup_lt_Some)|].
      exists (Js.set None m cell row). cbn [dpMatchPath]. split.
      * apply list_lookup_insert_eq. by eapply lookup_lt_Some.
      * rewrite cellAt_set_eq. destruct (leftScore <? score); [done|].
        destruct Hcell as (leftRow' & HleftRow' & ->). congruence.
    + apply carryForward_Normal in Hbranch
        as (leftScore' & leftRow' & row & leftItem & keep & Hleft'' & HleftRow' & Hrow & _ & _ & ->).
      assert (leftScore' = leftScore) as -> by congruence.
      assert (leftRow' = leftRow) as -> by congruence.
      split; [cbn [dpScores]; by rewrite list_lookup_insert_eq by (by eapply lookup_lt_Some)|].
      exists (Js.set None m (cellAt leftRow (Z.of_nat m)) row). cbn [dpMatchPath]. split.
      * apply list_lookup_insert_eq. by eapply lookup_lt_Some.
      * rewrite cellAt_set_eq. destruct (Z.ltb_spec leftScore score); [lia|done].
  - apply carryForward_Normal in Hbranch
      as (leftScore' & leftRow' & row & leftItem & keep & Hleft'' & HleftRow' & Hrow & _ & _ & ->).
    assert (leftScore' = leftScore) as -> by congruence.
    assert (leftRow' = leftRow) as -> by congruence.
    split; [cbn [dpScores]; by rewrite list_lookup_insert_eq by (by eapply lookup_lt_Some)|].
    exists (Js.set None m (cellAt leftRow (Z.of_nat m)) row). cbn [dpMatchPath]. split.
    * apply list_lookup_insert_eq. by eapply lookup_lt_Some.
    * by rewrite cellAt_set_eq.
Qed.

(** The guard of line 80 on one turn: when the entry of the
    predecessor is on the character of the letter at position [p] (its
    boundary start is the character of [p]) but on another reading of
    it (its boundary end is not the offset of the reading of [p]), the
    extension is not admissible, whatever the letters and the scores
    are: the turn at [p] writes no extension and carries the state of
    [p - 1] forward.  This holds of the turn only; the ranges that the
    backtracking assembles are another matter, see
    [deieDeDi]. *)
Lemma reading_is_kept m p
    (prevMatchedStrings prevMatchedLetters prevBoundaryStart prevBoundaryEnd prevScore : Z)
    st nextItem nextScore st' b :
  let prev := (prevMatchedStrings, prevMatchedLetters, prevBoundaryStart, prevBoundaryEnd) in
  bnd !! p = Some b ->
  prevBoundaryStart = b.1 - startBoundary ->
  prevBoundaryEnd <> b.2 - endBoundary ->
  extends_ m p b prev prevScore = false
  /\ (dpStep m p (prev, prevScore) st = Normal (nextItem, nextScore, st') ->
      carryForward m p b st = Normal st').
Proof.
  intros prev Hb Hstart Hend.
  assert (Hext : extends_ m p b prev prevScore = false).
  { assert (Hnew : isNewWord p b prev = false).
    { apply andb_false_iff. right. by apply negb_false_iff, Z.eqb_eq. }
    assert (Hcont : isContinuation m p b prev = false).
    { apply andb_false_iff. left. apply andb_false_iff. right. by apply Z.eqb_neq. }
    unfold extends_. rewrite Hnew, Hcont. cbn [orb]. by rewrite andb_false_r. }
  split; [done|]. intros Hstep.
  apply dpStep_Normal in Hstep as (b' & leftScore & _ & _ & Hb' & _ & Hbranch).
  assert (b' = b) as -> by congruence. by rewrite Hext in Hbranch.
Qed.

End Step.

(** ** The invariants of the scoring DP *)

Section DpInvariants.

Variables (pinyin : list N) (bnd : list (Z * Z)) (target : list N).
Variables (startBoundary endBoundary limit : Z).

Local Abbreviation P := (length pinyin).
Local Abbreviation Q := (length target).
Local Abbreviation Shape := (Shape P Q).
Local Abbreviation colDef := (colDef P).
Local Abbreviation offset := (charOffset bnd startBoundary).
Local Abbreviation goodItem := (goodItem bnd startBoundary).
Local Abbreviation goodCell := (goodCell limit).
Local Abbreviation Mid := (Mid bnd startBoundary P Q limit).
Local Abbreviation Done := (Done bnd startBoundary P Q limit).

Hypothesis Hslice : wf_slice bnd startBoundary limit P.

Lemma charOffset_at (p : nat) b :
  (1 <= p)%nat -> bnd !! p = Some b ->
  offset p = b.1 - startBoundary /\ 0 <= b.1 - startBoundary <= limit.
Proof.
  intros Hp Hb. destruct p as [|p]; [lia|]. unfold charOffset. rewrite Hb.
  split; [done|]. split; [|by eapply (slice_limit _ _ _ _ Hslice); [|done]; lia].
  destruct (slice_first _ _ _ _ Hslice) as (b1 & Hb1 & <-).
  enough (b1.1 <= b.1) by lia.
  eapply (slice_mono _ _ _ _ Hslice); [|done..]. lia.
Qed.

Lemma charOffset_lower (q : nat) : -1 <= offset q.
Proof.
  destruct q as [|q]; [done|]. destruct (bnd !! S q) as [b|] eqn:Hb.
  - pose proof (charOffset_at (S q) b ltac:(lia) Hb). lia.
  - unfold charOffset. by rewrite Hb.
Qed.

Lemma charOffset_mono (q q' : nat) :
  (q <= q' <= P)%nat -> offset q <= offset q'.
Proof.
  intros Hq. destruct q as [|q].
  { apply charOffset_lower. }
  pose proof (slice_length _ _ _ _ Hslice) as Hlen.
  destruct (lookup_lt_is_Some_2 bnd (S q)) as [b Hb]; [lia|].
  destruct (lookup_lt_is_Some_2 bnd q') as [b' Hb']; [lia|].
  pose proof (charOffset_at (S q) b ltac:(lia) Hb) as [-> _].
  pose proof (charOffset_at q' b' ltac:(lia) Hb') as [-> _].
  enough (b.1 <= b'.1) by lia.
  eapply (slice_mono _ _ _ _ Hslice); [|done..]. lia.
Qed.

(** *** Change of the set of letters with a path cell *)

Lemma goodItem_frame (D D' : Z -> Prop) j q it :
  (forall k, k < j -> D k -> D' k) -> goodItem D j q it -> goodItem D' j q it.
Proof.
  intros HD. destruct it as [[[ms ml] bs] be]. simpl.
  intros (? & ? & ? & [? ?] & Hchain). split_and!; try lia.
  intros Hml. destruct (Hchain Hml) as [|Hd]; [by left|right]. apply HD; [lia|done].
Qed.

Lemma goodCell_frame (D D' : Z -> Prop) j c :
  (forall k, k < j -> D k -> D' k) -> goodCell D j c -> goodCell D' j c.
Proof.
  intros HD. destruct c as [[s e] k]. simpl.
  intros (? & ? & ? & [? ?] & Hchain). split_and!; try lia.
  destruct Hchain as [|Hd]; [by left|right]. apply HD; [lia|done].
Qed.

Lemma goodScore_frame (D D' : Z -> Prop) j s :
  (D j -> D' j) -> goodScore D j s -> goodScore D' j s.
Proof. intros HD [? Hs]. split; [done|]. auto. Qed.

Lemma goodItem_later (D : Z -> Prop) j (q q' : nat) it :
  (q <= q' <= P)%nat -> goodItem D j q it -> goodItem D j q' it.
Proof.
  intros Hq. destruct it as [[[ms ml] bs] be]. simpl.
  intros (? & ? & ? & [? ?] & ?). pose proof (charOffset_mono q q' Hq).
  split_and!; try lia. done.
Qed.

Lemma goodItem_default (D : Z -> Prop) j (q : nat) :
  -1 <= j -> goodItem D j q defaultDpTableValue.
Proof.
  intros Hj. simpl. pose proof (charOffset_lower q). split_and!; try lia.
Qed.

(** *** Writing one path cell *)

Section WritePath.

Variables (path : list (list (option PathCell))) (p m : nat).
Variables (row : list (option PathCell)) (cell : option PathCell).
Hypothesis Hrow : path !! p = Some row.
Hypothesis Hm : (m < length row)%nat.

Let path' := <[p := Js.set None m cell row]> path.

Lemma written_path_lookup (q : nat) r :
  path' !! q = Some r ->
  exists r0, path !! q = Some r0
             /\ length r = length r0
             /\ (forall k, k <> Z.of_nat m -> cellAt r k = cellAt r0 k)
             /\ (q = p -> cellAt r (Z.of_nat m) = cell)
             /\ (q <> p -> r = r0).
Proof.
  unfold path'. pose proof (lookup_lt_Some _ _ _ Hrow) as Hp.
  destruct (decide (q = p)) as [->|Hne].
  - rewrite list_lookup_insert_eq by done. intros [= <-]. exists row. split_and!; try done.
    + by rewrite set_length.
    + intros k Hk. by apply cellAt_set_ne.
    + intros _. apply cellAt_set_eq.
  - rewrite list_lookup_insert_ne by done. intros Hr. exists r. by split_and!.
Qed.

Lemma written_path_length : length path' = length path.
Proof. unfold path'. apply length_insert. Qed.

Lemma written_path_frame k :
  k <> Z.of_nat m -> colDef path k -> colDef path' k.
Proof.
  intros Hk (r & c & Hr & Hc).
  pose proof (lookup_lt_Some _ _ _ Hr) as HP.
  rewrite <- written_path_length in HP.
  destruct (lookup_lt_is_Some_2 _ _ HP) as [r' Hr'].
  destruct (written_path_lookup _ _ Hr') as (r0 & Hr0 & _ & Hsame & _).
  assert (r0 = r) as -> by congruence.
  exists r', c. split; [done|]. by rewrite Hsame.
Qed.

End WritePath.

(** *** One position written in the three arrays *)

Lemma Mid_written m lo p current st row nextItem nextScore leftScore item s cell :
  (m < Q)%nat -> (p <= P)%nat ->
  Mid m lo p current st ->
  dpMatchPath st !! p = Some row ->
  dpTable st !! p = Some nextItem ->
  dpScores st !! p = Some nextScore ->
  dpScores st !! (p - 1)%nat = Some leftScore ->
  goodItem (colDef (dpMatchPath st)) (Z.of_nat m) p item ->
  0 <= s -> leftScore <= s ->
  (forall c, cell = Some c -> goodCell (colDef (dpMatchPath st)) (Z.of_nat m) c) ->
  (0 < s -> exists c, cell = Some c) ->
  Mid m lo (S p) (nextItem, nextScore)
    {| dpTable := <[p := item]> (dpTable st);
       dpScores := <[p := s]> (dpScores st);
       dpMatchPath := <[p := Js.set None m cell row]> (dpMatchPath st) |}.
Proof.
  intros Hm Hp Hmid Hrow Hni Hns Hleft Hitem Hs Hle Hcell Hfront.
  destruct Hmid as [Hshape Horder Hcols Hfresh Hold Hcur Hnew Hfr].
  destruct Hshape as [Ht Hsc Hpa Hrows].
  pose proof (Hrows _ _ Hrow) as Hrowlen.
  assert (Hmrow : (m < length row)%nat) by lia.
  assert (Hframe : forall k, k < Z.of_nat m ->
            colDef (dpMatchPath st) k ->
            colDef (<[p := Js.set None m cell row]> (dpMatchPath st)) k).
  { intros k Hk. apply written_path_frame; [done|done|lia]. }
  split; cbn [dpTable dpScores dpMatchPath fst snd].
  - split; cbn [dpTable dpScores dpMatchPath].
    + by rewrite length_insert.
    + by rewrite length_insert.
    + by rewrite length_insert.
    + intros q r Hr.
      destruct (written_path_lookup _ _ _ _ cell Hrow Hmrow _ _ Hr)
        as (r0 & Hr0 & -> & _). eauto.
  - lia.
  - intros k r c Hk Hr Hc.
    destruct (written_path_lookup _ _ _ _ cell Hrow Hmrow _ _ Hr)
      as (r0 & Hr0 & _ & Hsame & _).
    rewrite Hsame in Hc by lia.
    eapply goodCell_frame; [|by eapply Hcols]. intros k' Hk'. apply Hframe. lia.
  - intros q r k Hk Hr.
    destruct (written_path_lookup _ _ _ _ cell Hrow Hmrow _ _ Hr)
      as (r0 & Hr0 & _ & Hsame & _).
    rewrite Hsame by lia. by eapply Hfresh.
  - intros q it s0 Hq Hit Hs0.
    rewrite list_lookup_insert_ne in Hit by lia.
    rewrite list_lookup_insert_ne in Hs0 by lia.
    destruct (Hold q it s0 ltac:(lia) Hit Hs0) as [Hgi Hgs]. split.
    + eapply goodItem_frame; [|done]. intros k Hk. apply Hframe. lia.
    + eapply goodScore_frame; [|done]. apply Hframe. lia.
  - replace (S p - 1)%nat with p by lia.
    destruct (Hold p nextItem nextScore ltac:(lia) Hni Hns) as [Hgi Hgs]. split.
    + eapply goodItem_frame; [|done]. intros k Hk. apply Hframe. lia.
    + eapply goodScore_frame; [|done]. apply Hframe. lia.
  - replace (S p - 1)%nat with p by lia.
    intros q it s0 r Hq Hit Hs0 Hr. rewrite list_lookup_insert_eq by lia.
    destruct (written_path_lookup _ _ _ _ cell Hrow Hmrow _ _ Hr)
      as (r0 & Hr0 & _ & Hsame & Hat & Helse).
    destruct (decide (q = p)) as [->|Hne].
    + rewrite list_lookup_insert_eq in Hit by lia.
      rewrite list_lookup_insert_eq in Hs0 by lia.
      injection Hit as <-. injection Hs0 as <-.
      split_and!.
      * eapply goodItem_frame; [|done]. intros k Hk. by apply Hframe.
      * done.
      * intros s' [= <-]. lia.
      * rewrite (Hat eq_refl). intros c Hc.
        eapply goodCell_frame; [|by apply Hcell]. intros k Hk. by apply Hframe.
    + rewrite list_lookup_insert_ne in Hit by lia.
    rewrite list_lookup_insert_ne in Hs0 by lia.
      rewrite (Helse Hne) in *.
      destruct (Hnew q it s0 r0 ltac:(lia) Hit Hs0 Hr0) as (Hgi & Hs0' & Hmono & Hgc).
      split_and!.
      * eapply goodItem_frame; [|done]. intros k Hk. by apply Hframe.
      * done.
      * intros s' [= <-]. specialize (Hmono _ Hleft). lia.
      * intros c Hc. eapply goodCell_frame; [|by apply Hgc].
        intros k Hk. by apply Hframe.
  - replace (S p - 1)%nat with p by lia.
    intros s0 r. rewrite !list_lookup_insert_eq by lia. intros [= <-] [= <-] Hpos.
    rewrite cellAt_set_eq. by apply Hfront.
Qed.

(** *** One turn of the inner loop keeps the invariant *)

Local Abbreviation dpStep := (dpStep pinyin bnd target startBoundary endBoundary).
Local Abbreviation extends_ := (extends_ pinyin target startBoundary endBoundary).
Local Abbreviation extendedItem := (extendedItem startBoundary endBoundary).
Local Abbreviation extendedCell := (extendedCell startBoundary endBoundary).

Lemma extension_good (D : Z -> Prop) (m p : nat) b prev prevScore :
  (1 <= p <= P)%nat -> bnd !! p = Some b ->
  goodItem D (Z.of_nat m - 1) (p - 1) prev ->
  goodScore D (Z.of_nat m - 1) prevScore ->
  extends_ m p b prev prevScore = true ->
  goodItem D (Z.of_nat m) p (extendedItem p b prev)
  /\ goodCell D (Z.of_nat m) (extendedCell p b prev)
  /\ 0 < extendedScore prev prevScore.
Proof.
  intros Hp Hb Hprev [Hs0 HsD] Hext.
  destruct prev as [[[pms pml] pbs] pbe].
  destruct Hprev as (Hms & Hrun & Hbs & [Hml0 Hml] & Hchain).
  destruct (charOffset_at p b ltac:(lia) Hb) as [Hoff [Hlo Hhi]].
  pose proof (charOffset_mono (p - 1) p ltac:(lia)) as Hmono.
  unfold extends_ in Hext.
  apply andb_true_iff in Hext as [Hext Hfirst].
  apply andb_true_iff in Hext as [_ Hkind].
  assert (Hlink : pml + 1 = Z.of_nat m + 1 \/ D (Z.of_nat m - (pml + 1))).
  { destruct (decide (pml = 0)) as [->|Hne].
    - apply orb_true_iff in Hfirst as [Hz|Hpos].
      + apply Nat.eqb_eq in Hz. left. lia.
      + apply Z.ltb_lt in Hpos. right.
        replace (Z.of_nat m - (0 + 1)) with (Z.of_nat m - 1) by lia. auto.
    - destruct Hchain as [Heq|Hd]; [lia|left; lia|right].
      by replace (Z.of_nat m - (pml + 1)) with (Z.of_nat m - 1 - pml) by lia. }
  assert (Hcase : (isNewWord startBoundary endBoundary p b (pms, pml, pbs, pbe) = true
                   /\ pbs <> b.1 - startBoundary)
                  \/ (isNewWord startBoundary endBoundary p b (pms, pml, pbs, pbe) = false
                      /\ 0 < pms)).
  { destruct (isNewWord _ _ _ _ _) eqn:Hnw.
    - left. split; [done|]. unfold isNewWord in Hnw.
      apply andb_true_iff in Hnw as [_ Hnw]. apply negb_true_iff in Hnw.
      by apply Z.eqb_neq.
    - right. split; [done|]. cbn [orb] in Hkind. unfold isContinuation in Hkind.
      apply andb_true_iff in Hkind as [Hkind _].
      apply andb_true_iff in Hkind as [Hkind _]. by apply Z.ltb_lt. }
  unfold extendedItem, extendedCell, extendedScore, goodItem, goodCell.
  destruct Hcase as [[-> Hne]|[-> Hpos]]; cbn [Js.toInt negb];
    split_and!; try lia; auto.
Qed.

Lemma keepsEntry_returns (p : nat) b leftItem :
  exists keep, keepsEntry pinyin bnd startBoundary p b leftItem = Normal keep.
Proof.
  unfold keepsEntry. destruct (_ =? 0); [eauto|].
  destruct (Z.ltb_spec (Z.of_nat p) (Z.of_nat P - 1)); cbn [andb]; [|eauto].
  destruct (_ =? 1); [|eauto].
  pose proof (slice_length _ _ _ _ Hslice) as Hlen.
  destruct (lookup_lt_is_Some_2 bnd (S p)) as [next ->]; [lia|].
  cbn [mbind Completion_bind must]. eauto.
Qed.

Lemma dpStep_Mid m lo p current st :
  (m < Q)%nat -> (p <= P)%nat ->
  Mid m lo p current st ->
  exists next st',
    dpStep m p current st = Normal (next, st') /\ Mid m lo (S p) next st'.
Proof.
  intros Hm Hp Hmid. destruct current as [prev prevScore].
  pose proof (mid_shape _ _ _ _ _ _ _ _ _ _ Hmid) as [Ht Hsc Hpa Hrows].
  pose proof (mid_order _ _ _ _ _ _ _ _ _ _ Hmid) as Horder.
  pose proof (slice_length _ _ _ _ Hslice) as Hlen.
  destruct (lookup_lt_is_Some_2 (dpTable st) p) as [nextItem Hni]; [lia|].
  destruct (lookup_lt_is_Some_2 (dpScores st) p) as [nextScore Hns]; [lia|].
  destruct (lookup_lt_is_Some_2 bnd p) as [b Hb]; [lia|].
  destruct (lookup_lt_is_Some_2 (dpScores st) (p - 1)) as [leftScore Hls]; [lia|].
  destruct (lookup_lt_is_Some_2 (dpTable st) (p - 1)) as [leftItem Hli]; [lia|].
  destruct (lookup_lt_is_Some_2 (dpMatchPath st) p) as [row Hrow]; [lia|].
  destruct (lookup_lt_is_Some_2 (dpMatchPath st) (p - 1)) as [leftRow Hlr]; [lia|].
  destruct (mid_current _ _ _ _ _ _ _ _ _ _ Hmid) as [Hprev HprevScore].
  cbn [fst snd] in Hprev, HprevScore.
  destruct (mid_new _ _ _ _ _ _ _ _ _ _ Hmid (p - 1)%nat leftItem leftScore leftRow
              ltac:(lia) Hli Hls Hlr) as (HleftItem & HleftScore & _ & HleftCell).
  pose proof (mid_front _ _ _ _ _ _ _ _ _ _ Hmid leftScore leftRow Hls Hlr) as HleftFront.
  exists (nextItem, nextScore).
  unfold dpStep. rewrite Hni, Hns, Hb, Hls. cbn [mbind Completion_bind must].
  destruct (extends_ m p b prev prevScore) eqn:Hext; cbn [andb].
  - destruct (extension_good _ m p b prev prevScore ltac:(lia) Hb Hprev HprevScore Hext)
      as (Hgi & Hgc & Hpos).
    destruct (Z.leb_spec leftScore (extendedScore prev prevScore)) as [Hle|Hgt].
    + unfold acceptExtension. rewrite Hls. cbn [mbind Completion_bind must].
      destruct (Z.ltb_spec leftScore (extendedScore prev prevScore)) as [Hlt|Hge];
        cbn [mbind Completion_bind]; unfold leftPath, setPath; rewrite ?Hlr, Hrow;
        cbn [mbind Completion_bind must].
      * eexists. split; [reflexivity|].
        eapply Mid_written; try done; try lia.
        -- by intros c [= <-].
        -- eauto.
      * eexists. split; [reflexivity|].
        eapply Mid_written; try done; try lia.
        intros _. apply HleftFront. lia.
    + unfold carryForward, leftPath, setPath. rewrite Hls, Hlr, Hrow, Hli.
      cbn [mbind Completion_bind must].
      destruct (keepsEntry_returns p b leftItem) as [keep ->].
      cbn [mbind Completion_bind]. eexists. split; [reflexivity|].
      eapply Mid_written; try done; try lia.
      destruct keep; [|by apply goodItem_default; lia].
      eapply goodItem_later; [|done]. lia.
  - unfold carryForward, leftPath, setPath. rewrite Hls, Hlr, Hrow, Hli.
    cbn [mbind Completion_bind must].
    destruct (keepsEntry_returns p b leftItem) as [keep ->].
    cbn [mbind Completion_bind]. eexists. split; [reflexivity|].
    eapply Mid_written; try done; try lia.
    destruct keep; [|by apply goodItem_default; lia].
    eapply goodItem_later; [|done]. lia.
Qed.

(** *** The loops *)

Local Abbreviation dpInner := (dpInner pinyin bnd target startBoundary endBoundary).
Local Abbreviation dpPass := (dpPass pinyin bnd target startBoundary endBoundary).
Local Abbreviation dpOuter := (dpOuter pinyin bnd target startBoundary endBoundary).
Local Abbreviation dpInit := (dpInit pinyin target).

Lemma dpInner_Mid n m lo p current st :
  (m < Q)%nat -> (p + n = S P)%nat ->
  Mid m lo p current st ->
  exists last st', dpInner n m p current st = Normal st' /\ Mid m lo (S P) last st'.
Proof.
  intros Hm. revert p current st. induction n as [|n IH]; intros p current st Hn Hmid.
  - replace p with (S P) in Hmid by lia. simpl. eauto.
  - destruct (dpStep_Mid m lo p current st Hm ltac:(lia) Hmid) as ([nextItem nextScore] & st1 & Hstep & Hmid1).
    cbn [dpInner]. rewrite Hstep. cbn [mbind Completion_bind].
    apply IH; [lia|done].
Qed.

Lemma Mid_start m lo mp st item s :
  (m < Q)%nat -> (lo <= mp)%nat -> (mp < P)%nat ->
  Done (Z.of_nat m - 1) lo st ->
  dpTable st !! mp = Some item -> dpScores st !! mp = Some s ->
  Mid m mp (S mp) (item, s)
    {| dpTable := <[mp := defaultDpTableValue]> (dpTable st);
       dpScores := <[mp := 0]> (dpScores st);
       dpMatchPath := dpMatchPath st |}.
Proof.
  intros Hm Hlo Hmp [[Ht Hsc Hpa Hrows] Hcols Hfresh Hzone] Hitem Hs.
  split; cbn [dpTable dpScores dpMatchPath fst snd].
  - split; cbn [dpTable dpScores dpMatchPath]; try done.
    + by rewrite length_insert.
    + by rewrite length_insert.
  - lia.
  - intros k row c Hk. apply Hcols. lia.
  - intros q row k Hk. apply Hfresh. lia.
  - intros q it s0 Hq Hit Hs0.
    rewrite list_lookup_insert_ne in Hit by lia.
    rewrite list_lookup_insert_ne in Hs0 by lia.
    apply Hzone; [lia|done..].
  - replace (S mp - 1)%nat with mp by lia. apply Hzone; [lia|done..].
  - replace (S mp - 1)%nat with mp by lia.
    intros q it s0 row Hq Hit Hs0 Hrow.
    assert (q = mp) as -> by lia.
    rewrite list_lookup_insert_eq in Hit by lia.
    rewrite list_lookup_insert_eq in Hs0 by lia.
    injection Hit as <-. injection Hs0 as <-. split_and!.
    + apply goodItem_default. lia.
    + done.
    + rewrite list_lookup_insert_eq by lia. by intros s' [= <-].
    + intros c Hc. rewrite (Hfresh mp row (Z.of_nat m)) in Hc; [done|lia|done].
  - replace (S mp - 1)%nat with mp by lia.
    intros s0 row. rewrite list_lookup_insert_eq by lia. intros [= <-] _ Hpos. lia.
Qed.

Lemma Mid_end m lo last st :
  Mid m lo (S P) last st -> Done (Z.of_nat m) lo st.
Proof.
  intros [Hshape Horder Hcols Hfresh Hold Hcur Hnew Hfront].
  pose proof Hshape as [Ht Hsc Hpa Hrows].
  replace (S P - 1)%nat with P in * by lia.
  destruct (lookup_lt_is_Some_2 (dpTable st) P) as [itemP HitemP]; [lia|].
  destruct (lookup_lt_is_Some_2 (dpScores st) P) as [sP HsP]; [lia|].
  destruct (lookup_lt_is_Some_2 (dpMatchPath st) P) as [rowP HrowP]; [lia|].
  split; try done.
  - intros k row c Hk Hrow Hc.
    destruct (decide (k = Z.of_nat m)) as [->|Hne].
    + destruct (Hnew P itemP sP row ltac:(lia) HitemP HsP Hrow) as (_ & _ & _ & Hgc).
      by apply Hgc.
    + eapply Hcols; [lia|done..].
  - intros q it s Hq Hit Hs.
    pose proof (lookup_lt_Some _ _ _ Hit) as HqP.
    destruct (lookup_lt_is_Some_2 (dpMatchPath st) q) as [row Hrow]; [lia|].
    destruct (Hnew q it s row ltac:(lia) Hit Hs Hrow) as (Hgi & Hs0 & Hmono & _).
    split; [done|]. split; [done|]. intros Hpos.
    specialize (Hmono _ HsP).
    destruct (Hfront sP rowP HsP HrowP ltac:(lia)) as [c Hc].
    by exists rowP, c.
Qed.

Lemma Done_later j lo lo' st : (lo <= lo')%nat -> Done j lo st -> Done j lo' st.
Proof.
  intros Hlo [Hshape Hcols Hfresh Hzone]. split; try done.
  intros q it s Hq. apply Hzone. lia.
Qed.

Lemma dpPass_Done m lo mp st :
  (m < Q)%nat -> (lo <= mp)%nat -> (mp < P)%nat ->
  Done (Z.of_nat m - 1) lo st ->
  exists st', dpPass m mp st = Normal st' /\ Done (Z.of_nat m) (S mp) st'.
Proof.
  intros Hm Hlo Hmp Hdone.
  pose proof (done_shape _ _ _ _ _ _ _ _ Hdone) as [Ht Hsc Hpa Hrows].
  destruct (lookup_lt_is_Some_2 (dpTable st) mp) as [item Hitem]; [lia|].
  destruct (lookup_lt_is_Some_2 (dpScores st) mp) as [s Hs]; [lia|].
  unfold dpPass. replace (S mp - 1)%nat with mp by lia.
  rewrite Hitem, Hs. cbn [mbind Completion_bind must].
  pose proof (Mid_start m lo mp st item s Hm Hlo Hmp Hdone Hitem Hs) as Hmid.
  destruct (dpInner_Mid (S P - S mp) m mp (S mp) _ _ Hm ltac:(lia) Hmid)
    as (last & st' & Hrun & Hmid').
  exists st'. split; [done|].
  eapply Done_later; [|by eapply Mid_end]. lia.
Qed.

Lemma dpOuter_Done mps m lo st :
  (m + length mps <= Q)%nat -> anchored P lo mps ->
  Done (Z.of_nat m - 1) lo st ->
  exists st' lo',
    dpOuter m mps st = Normal st'
    /\ Done (Z.of_nat (m + length mps) - 1) lo' st'.
Proof.
  revert m lo st. induction mps as [|mp mps IH]; intros m lo st Hm Hanch Hdone.
  - simpl. exists st, lo. split; [done|]. by replace (m + 0)%nat with m by lia.
  - destruct Hanch as (Hlo & Hmp & Hanch). simpl in Hm.
    destruct (dpPass_Done m lo mp st ltac:(lia) Hlo Hmp Hdone) as (st1 & Hpass & Hdone1).
    cbn [dpOuter]. rewrite Hpass. cbn [mbind Completion_bind].
    replace (m + length (mp :: mps))%nat with (S m + length mps)%nat by (simpl; lia).
    apply (IH (S m) (S mp)); [lia|done|].
    by replace (Z.of_nat (S m) - 1) with (Z.of_nat m) by lia.
Qed.

Lemma cellAt_replicate n k : cellAt (replicate n None) k = None.
Proof.
  unfold cellAt, Js.at_. destruct (k <? 0); [done|].
  destruct (replicate n None !! Z.to_nat k) as [c|] eqn:Hc; [|done].
  by apply lookup_replicate in Hc as [-> _].
Qed.

Lemma dpInit_Done : Done (-1) 0 dpInit.
Proof.
  split.
  - split; unfold dpInit; cbn [dpTable dpScores dpMatchPath];
      rewrite ?length_replicate; try done.
    intros q row Hrow. apply lookup_replicate in Hrow as [-> _].
    by rewrite length_replicate.
  - intros k row c _ Hrow Hc. unfold dpInit in Hrow. cbn [dpMatchPath] in Hrow.
    apply lookup_replicate in Hrow as [-> _]. by rewrite cellAt_replicate in Hc.
  - intros q row k _ Hrow. unfold dpInit in Hrow. cbn [dpMatchPath] in Hrow.
    apply lookup_replicate in Hrow as [-> _]. apply cellAt_replicate.
  - intros q it s _ Hit Hs. unfold dpInit in Hit, Hs. cbn [dpTable dpScores] in Hit, Hs.
    apply lookup_replicate in Hit as [-> _]. apply lookup_replicate in Hs as [-> _].
    split; [by apply goodItem_default|]. split; [done|lia].
Qed.

(** *** The backtracking *)

Lemma backtrack_Done st lo row startIndex (good : Z * Z -> Prop) :
  Done (Z.of_nat Q - 1) lo st ->
  dpMatchPath st !! P = Some row ->
  (forall start end_,
      0 <= start -> start <= end_ -> end_ <= limit ->
      good (start + startIndex, end_ + startIndex)) ->
  forall fuel i hitIndices,
    i < Z.of_nat fuel -> i <= Z.of_nat Q - 1 ->
    (0 <= i -> colDef (dpMatchPath st) i) ->
    Forall good hitIndices ->
    exists hits,
      backtrack fuel row i startIndex hitIndices = Normal hits /\ Forall good hits.
Proof.
  intros Hdone Hrow Hgood.
  induction fuel as [|fuel IH]; intros i hitIndices Hfuel Hi Hdef Hhits.
  - simpl. destruct (Z.ltb_spec i 0); [eauto|lia].
  - simpl. destruct (Z.ltb_spec i 0) as [|Hi0]; [eauto|].
    destruct (Hdef Hi0) as (row' & c & Hrow' & Hc).
    assert (row' = row) as -> by congruence.
    rewrite Hc. cbn [mbind Completion_bind must].
    pose proof (done_cols _ _ _ _ _ _ _ _ Hdone i row c Hi Hrow Hc) as Hgc.
    destruct c as [[start end_] matchedLetters].
    destruct Hgc as (H0 & Hse & Hlim & [Hk1 Hk2] & Hchain).
    apply IH; [lia|lia| |].
    + intros Hnext. destruct Hchain as [Heq|Hd]; [lia|done].
    + constructor; [|done]. by apply Hgood.
Qed.

(** *** The matcher after the guard *)

Lemma matchWord_returns startIndex (good : Z * Z -> Prop) :
  (forall start end_,
      0 <= start -> start <= end_ -> end_ <= limit ->
      good (start + startIndex, end_ + startIndex)) ->
  exists r,
    matchWord pinyin bnd target startBoundary endBoundary startIndex = Normal r
    /\ forall hits, r = Return137 hits -> Forall good hits.
Proof.
  intros Hgood. unfold matchWord.
  destruct (Nat.ltb_spec (length (scan 0 pinyin target)) Q) as [|Hge].
  { eexists. split; [done|]. intros hits [=]. }
  pose proof (scan_length_le 0 pinyin target) as Hle.
  pose proof (scan_anchored 0 pinyin target) as Hanch. rewrite Nat.add_0_l in Hanch.
  destruct (dpOuter_Done (scan 0 pinyin target) 0 0 dpInit ltac:(lia) Hanch dpInit_Done)
    as (st & lo & -> & Hdone).
  cbn [mbind Completion_bind].
  replace (0 + length (scan 0 pinyin target))%nat with Q in Hdone by lia.
  pose proof (done_shape _ _ _ _ _ _ _ _ Hdone) as [Ht Hsc Hpa Hrows].
  destruct (lookup_lt_is_Some_2 (dpMatchPath st) P) as [row Hrow]; [lia|].
  rewrite Hrow. cbn [mbind Completion_bind must].
  destruct (cellAt row (Z.of_nat Q - 1)) as [c|] eqn:Hc.
  - destruct (backtrack_Done st lo row startIndex good Hdone Hrow Hgood Q
                (Z.of_nat Q - 1) []) as (hits & -> & Hhits); try lia; try done.
    { intros _. by exists row, c. }
    cbn [mbind Completion_bind]. eexists. split; [done|]. by intros ? [= <-].
  - eexists. split; [done|]. intros hits [=].
Qed.

End DpInvariants.

(** ** The matcher of one word on a well-formed mapping *)

Lemma wf_slice_of_wf d startIndex endIndex first :
  wf_data d -> validRange d startIndex endIndex ->
  boundarySlice d startIndex endIndex !! 1%nat = Some first ->
  wf_slice (boundarySlice d startIndex endIndex) first.1 (endIndex - 1 - startIndex)
           (length (pinyinSlice d startIndex endIndex)).
Proof.
  intros Hwf Hr Hfirst.
  pose proof (slices_length d _ _ Hwf Hr) as Hlen.
  destruct (slices_of_wf d _ _ Hwf Hr) as (a & b & Ha & Hb & Ha0 & Hab & Hbn & Hps & Hbs).
  pose proof (wf_boundary_length d Hwf) as Hbl.
  assert (HP : length (pinyinSlice d startIndex endIndex) = Z.to_nat (b - a)).
  { rewrite Hps. apply length_slice; lia. }
  assert (Hlook : forall (p : nat) x,
             boundarySlice d startIndex endIndex !! p = Some x ->
             (p <= Z.to_nat (b - a))%nat
             /\ boundary d !! (Z.to_nat a + p)%nat = Some x).
  { intros p x Hx. pose proof (lookup_lt_Some _ _ _ Hx) as Hp.
    rewrite Hlen, HP in Hp. split; [lia|].
    rewrite Hbs, lookup_slice in Hx; [done|lia..]. }
  assert (Hchar : forall (p : nat) x,
             (1 <= p)%nat -> boundarySlice d startIndex endIndex !! p = Some x ->
             startIndex <= x.1 < endIndex).
  { intros p x Hp Hx. apply Hlook in Hx as [Hpb Hx].
    pose proof (wf_alignment d Hwf (Z.to_nat startIndex) (Z.to_nat endIndex)
                  (Z.to_nat a + p - 1) a b x Ha Hb) as Hal.
    destruct Hr as (? & ? & ?).
    replace (S (Z.to_nat a + p - 1)) with (Z.to_nat a + p)%nat in Hal by lia.
    specialize (Hal ltac:(lia) Hx). lia. }
  split.
  - done.
  - by exists first.
  - intros p q x y Hpq Hx Hy. apply Hlook in Hx as [_ Hx]. apply Hlook in Hy as [_ Hy].
    eapply (wf_boundary_mono d Hwf); [|done..]. lia.
  - intros p x Hp Hx. pose proof (Hchar p x Hp Hx).
    pose proof (Hchar 1%nat first ltac:(lia) Hfirst). lia.
Qed.

(** On a well-formed mapping and a sub-range of its characters the
    matcher of one word returns, and the ranges of a hit are ranges of
    characters of the sub-range, the last one excluded. *)
Lemma searchByBoundaryMapping_within d target startIndex endIndex :
  wf_data d -> validRange d startIndex endIndex ->
  exists r,
    searchByBoundaryMapping d target startIndex endIndex = Normal r
    /\ forall hits, r = Return137 hits ->
         Forall (fun x => startIndex <= x.1 /\ x.1 <= x.2 /\ x.2 < endIndex) hits.
Proof.
  intros Hwf Hr. unfold searchByBoundaryMapping.
  destruct (_ || _ || _) eqn:Hguard.
  { eexists. split; [done|]. intros hits [=]. }
  apply orb_false_iff in Hguard as [Hguard _].
  apply orb_false_iff in Hguard as [Hq Hp].
  apply Nat.eqb_neq in Hq. apply Nat.ltb_ge in Hp.
  pose proof (slices_length d _ _ Hwf Hr) as Hlen.
  destruct (lookup_lt_is_Some_2 (boundarySlice d startIndex endIndex) 1) as [first Hfirst];
    [lia|].
  rewrite Hfirst. cbn [mbind Completion_bind must].
  apply (matchWord_returns _ _ _ _ _ (endIndex - 1 - startIndex)).
  - by apply wf_slice_of_wf.
  - intros start end_ H0 Hse Hlim. cbn [fst snd]. lia.
Qed.

(** C10: on a well-formed mapping and a sub-range [[startIndex,
    endIndex]] of its characters, every range [[s, e]] of a matrix that
    [searchByBoundaryMapping] returns satisfies [startIndex <= s],
    [s <= e] and [e <= endIndex]. *)
Theorem hit_ranges_within d target startIndex endIndex hits :
  wf_data d -> validRange d startIndex endIndex ->
  searchByBoundaryMapping d target startIndex endIndex = Normal (Return137 hits) ->
  forall s e, (s, e) ∈ hits -> startIndex <= s /\ s <= e /\ e <= endIndex.
Proof.
  intros Hwf Hr Hsearch s e Hin.
  destruct (searchByBoundaryMapping_within d target _ _ Hwf Hr) as (r & Heq & Hhits).
  rewrite Hsearch in Heq. injection Heq as <-.
  specialize (Hhits hits eq_refl). rewrite Forall_forall in Hhits.
  specialize (Hhits _ Hin). cbn [fst snd] in Hhits. lia.
Qed.

Lemma hit_ranges_within_witness :
  searchByBoundaryMapping (identityMapping (Js.ofString "no_node")) (Js.ofString "nod") 0 7
  = Normal (Return137 [(3, 5)])
  /\ (0 <= 3 /\ 3 <= 5 /\ 5 <= 7).
Proof.
  split; [reflexivity|].
  apply (hit_ranges_within (identityMapping (Js.ofString "no_node")) (Js.ofString "nod")
           0 7 [(3, 5)]).
  - apply identityMapping_wf.
  - unfold validRange. simpl. lia.
  - reflexivity.
  - by left.
Defined.

(** ** The sentence level *)

Section SentenceProofs.

Variable getRestRanges : Z -> Matrix -> Matrix.

Local Abbreviation placeWords := (placeWords getRestRanges).
Local Abbreviation searchSentence := (searchSentenceByBoundaryMapping getRestRanges).

Lemma tryRanges_hit d word rs hit :
  tryRanges d word rs = Normal (Some hit) ->
  exists r, r ∈ rs /\ searchByBoundaryMapping d word r.1 r.2 = Normal (Return137 hit).
Proof.
  induction rs as [|r rs IH]; simpl; [done|].
  destruct (searchByBoundaryMapping d word r.1 r.2) as [ret| |] eqn:Hs;
    cbn [mbind Completion_bind]; try done.
  destruct ret; cbn [valueOf]; intros H.
  1-3: destruct (IH H) as (r' & Hin & Hr'); exists r'; split; [by right|done].
  injection H as <-. exists r. split; [by left|done].
Qed.

Lemma tryRanges_miss d word rs :
  (forall r, r ∈ rs ->
     exists ret, searchByBoundaryMapping d word r.1 r.2 = Normal ret
                 /\ valueOf ret = None) ->
  tryRanges d word rs = Normal None.
Proof.
  induction rs as [|r rs IH]; intros Hall; simpl; [done|].
  destruct (Hall r ltac:(by left)) as (ret & -> & Hret).
  cbn [mbind Completion_bind]. rewrite Hret. apply IH.
  intros r' Hr'. apply Hall. by right.
Qed.

Lemma tryRanges_returns d word rs :
  (forall r, r ∈ rs -> returns (searchByBoundaryMapping d word r.1 r.2)) ->
  returns (tryRanges d word rs).
Proof.
  induction rs as [|r rs IH]; intros Hall; simpl; [by eexists|].
  destruct (Hall r ltac:(by left)) as (ret & ->).
  cbn [mbind Completion_bind]. destruct (valueOf ret); [by eexists|].
  apply IH. intros r' Hr'. apply Hall. by right.
Qed.

Lemma placeWords_Placed d words claimedRanges hits :
  placeWords d words claimedRanges = Normal (Some hits) ->
  exists perWord,
    Placed getRestRanges d words claimedRanges perWord
    /\ hits = claimedRanges ++ concat perWord.
Proof.
  revert claimedRanges. induction words as [|word words IH]; intros claimedRanges; simpl.
  - intros [= <-]. exists []. split; [constructor|]. by rewrite app_nil_r.
  - destruct (length _ =? 0)%nat; [done|].
    destruct (tryRanges d word _) as [[hit|]| |] eqn:Htry;
      cbn [mbind Completion_bind]; try done.
    intros H. apply tryRanges_hit in Htry as (r & Hin & Hr).
    destruct (IH _ H) as (perWord & Hplaced & ->).
    exists (hit :: perWord). split; [by econstructor|].
    simpl. by rewrite app_assoc.
Qed.

Lemma placeWords_app d before after claimedRanges claimed' :
  placeWords d before claimedRanges = Normal (Some claimed') ->
  placeWords d (before ++ after) claimedRanges = placeWords d after claimed'.
Proof.
  revert claimedRanges. induction before as [|word before IH]; intros claimedRanges; simpl.
  - by intros [= <-].
  - destruct (length _ =? 0)%nat; [done|].
    destruct (tryRanges d word _) as [[hit|]| |];
      cbn [mbind Completion_bind]; try done.
    apply IH.
Qed.

Lemma placeWords_unplaceable d word after claimedRanges :
  (forall r, r ∈ getRestRanges (originalLength d) claimedRanges ->
     exists ret, searchByBoundaryMapping d word r.1 r.2 = Normal ret
                 /\ valueOf ret = None) ->
  placeWords d (word :: after) claimedRanges = Normal None.
Proof.
  intros Hall. simpl. destruct (length _ =? 0)%nat; [done|].
  by rewrite (tryRanges_miss d word _ Hall).
Qed.

Hypothesis Hcontract : restRangesContract getRestRanges.

Lemma rest_range_valid d claimedRanges r :
  r ∈ getRestRanges (originalLength d) claimedRanges -> validRange d r.1 r.2.
Proof. intros Hin. by apply (rest_within _ Hcontract) in Hin. Qed.

Lemma placeWords_returns d words claimedRanges :
  wf_data d -> returns (placeWords d words claimedRanges).
Proof.
  intros Hwf. revert claimedRanges.
  induction words as [|word words IH]; intros claimedRanges; simpl; [by eexists|].
  destruct (length _ =? 0)%nat; [by eexists|].
  destruct (tryRanges_returns d word (getRestRanges (originalLength d) claimedRanges))
    as (found & ->).
  { intros r Hr.
    destruct (searchByBoundaryMapping_within d word r.1 r.2 Hwf
                (rest_range_valid d _ r Hr)) as (ret & -> & _).
    by eexists. }
  cbn [mbind Completion_bind]. destruct found; [apply IH|by eexists].
Qed.

Lemma unclaimed_disjoint (c x r : Z * Z) :
  c.1 <= c.2 -> r.1 <= x.1 -> x.1 <= x.2 -> x.2 < r.2 ->
  (forall i, r.1 <= i < r.2 -> ~ (c.1 <= i <= c.2)) ->
  disjoint c x.
Proof.
  intros Hc Hrx Hx Hxr Hun. unfold disjoint.
  pose proof (Hun (Z.max x.1 c.1)). lia.
Qed.

Lemma Placed_disjoint d words claimedRanges perWord :
  wf_data d ->
  Placed getRestRanges d words claimedRanges perWord ->
  Forall (fun c => c.1 <= c.2) claimedRanges ->
  pairwiseDisjoint perWord
  /\ (forall hj y c, hj ∈ perWord -> y ∈ hj -> c ∈ claimedRanges -> disjoint c y).
Proof.
  intros Hwf Hplaced. induction Hplaced as [|word words claimedRanges r hit perWord Hr Hs Hrest IH];
    intros Hclaimed.
  - split.
    + intros i j hi hj x y _ Hi. by rewrite lookup_nil in Hi.
    + intros hj y c Hin. by apply elem_of_nil in Hin.
  - destruct (searchByBoundaryMapping_within d word r.1 r.2 Hwf
                (rest_range_valid d _ r Hr)) as (ret & Heq & Hhit).
    rewrite Hs in Heq. injection Heq as <-. specialize (Hhit hit eq_refl).
    rewrite Forall_forall in Hhit. rewrite Forall_forall in Hclaimed.
    assert (Hfresh : forall y c, y ∈ hit -> c ∈ claimedRanges -> disjoint c y).
    { intros y c Hy Hc. destruct (Hhit y Hy) as (? & ? & ?).
      eapply (unclaimed_disjoint c y r); try done; [by apply Hclaimed|].
      intros i Hi. by eapply (rest_unclaimed _ Hcontract). }
    destruct IH as [IHpair IHclaimed].
    { apply Forall_app. split; [by apply Forall_forall|].
      apply Forall_forall. intros y Hy. destruct (Hhit y Hy) as (? & ? & ?). done. }
    split.
    + intros i j hi hj x y Hij Hi Hj Hx Hy.
      destruct j as [|j]; [lia|]. simpl in Hj.
      destruct i as [|i]; simpl in Hi.
      * injection Hi as <-. apply (IHclaimed hj y x).
        -- by eapply list_elem_of_lookup_2.
        -- done.
        -- apply elem_of_app. by right.
      * eapply (IHpair i j); [lia|done..].
    + intros hj y c Hhj Hy Hc. apply elem_of_cons in Hhj as [->|Hhj].
      * by apply Hfresh.
      * apply (IHclaimed hj y c); [done|done|]. apply elem_of_app. by left.
Qed.

(** C4: when [searchSentenceByBoundaryMapping] returns a matrix on a
    well-formed mapping, the matrix is the single range of the literal
    fast path, or it is made of the ranges of the words in order, each
    word being placed by the matcher inside a range not yet claimed by
    the words before it, and the ranges of two distinct words have no
    common position.  And when the words before some word are placed
    and that word is found in none of the remaining ranges, the whole
    call returns no-match. *)
Theorem words_are_placed_apart d sentence :
  wf_data d ->
  (forall hits,
      searchSentence d sentence = Normal (Some hits) ->
      searchWithIndexof (originalString d) sentence = Some hits
      \/ exists perWord,
          Placed getRestRanges d (Js.splitWhiteSpace (Js.trim sentence)) [] perWord
          /\ hits = concat perWord
          /\ pairwiseDisjoint perWord)
  /\ (forall before word after claimedRanges,
        sentence <> [] ->
        searchWithIndexof (originalString d) sentence = None ->
        Js.splitWhiteSpace (Js.trim sentence) = before ++ word :: after ->
        placeWords d before [] = Normal (Some claimedRanges) ->
        (forall r, r ∈ getRestRanges (originalLength d) claimedRanges ->
           exists ret, searchByBoundaryMapping d word r.1 r.2 = Normal ret
                       /\ valueOf ret = None) ->
        searchSentence d sentence = Normal None).
Proof.
  intros Hwf. split.
  - intros hits. unfold searchSentenceByBoundaryMapping.
    destruct (length sentence =? 0)%nat; [done|].
    destruct (searchWithIndexof _ _) as [lit|]; [intros [= <-]; by left|].
    intros H. right. apply placeWords_Placed in H as (perWord & Hplaced & ->).
    exists perWord. split_and!; try done.
    by apply (Placed_disjoint d _ [] perWord Hwf Hplaced).
  - intros before word after claimedRanges Hne Hlit Hsplit Hbefore Hnone.
    unfold searchSentenceByBoundaryMapping.
    destruct sentence; [done|]. simpl length. cbn [Nat.eqb].
    rewrite Hlit, Hsplit, (placeWords_app d before _ [] claimedRanges Hbefore).
    by apply placeWords_unplaceable.
Qed.

(** C9: on a well-formed mapping, and with a range utility that
    returns sub-ranges of the string, the three functions return
    normally, with a matrix or with no-match: the matcher of one word
    for every word and every sub-range, the sentence level for every
    query, and the entry point for every query when the provider
    yields a well-formed mapping.  A normal return excludes the
    exception of a read outside an array or of an absent path cell in
    the backtracking, and excludes a backtracking that does not end. *)
Theorem search_returns d target startIndex endIndex sentence source
    (getBoundaryMapping : list N -> SourceMappingData) :
  wf_data d -> validRange d startIndex endIndex ->
  wf_data (getBoundaryMapping source) ->
  returns (searchByBoundaryMapping d target startIndex endIndex)
  /\ returns (searchSentence d sentence)
  /\ returns (searchEntry getRestRanges source sentence getBoundaryMapping).
Proof.
  intros Hwf Hr Hwf'.
  assert (Hsent : forall d', wf_data d' -> returns (searchSentence d' sentence)).
  { intros d' Hd'. unfold searchSentenceByBoundaryMapping.
    destruct (length sentence =? 0)%nat; [by eexists|].
    destruct (searchWithIndexof _ _); [by eexists|]. by apply placeWords_returns. }
  split_and!.
  - destruct (searchByBoundaryMapping_within d target _ _ Hwf Hr) as (r & -> & _).
    by eexists.
  - by apply Hsent.
  - unfold searchEntry. destruct (searchWithIndexof _ _); [by eexists|]. by apply Hsent.
Qed.

End SentenceProofs.

(** ** The modelled range utility meets the contract *)

Lemma claimed_false cs i c :
  RangeUtility.claimed cs i = false -> c ∈ cs -> ~ (c.1 <= i <= c.2).
Proof.
  unfold RangeUtility.claimed. intros Hcl Hc [H1 H2].
  assert (Hex : existsb (fun c => (c.1 <=? i) && (i <=? c.2)) cs = true); [|congruence].
  apply existsb_exists. exists c. split; [by apply list_elem_of_In|].
  apply andb_true_iff. split; by apply Z.leb_le.
Qed.

Lemma runs_spec cs n i open r :
  0 <= i ->
  (forall a, open = Some a ->
             0 <= a < i /\ forall j, a <= j < i -> RangeUtility.claimed cs j = false) ->
  r ∈ RangeUtility.runs cs n i open ->
  0 <= r.1 /\ r.1 < r.2 /\ r.2 <= i + Z.of_nat n
  /\ forall j, r.1 <= j < r.2 -> RangeUtility.claimed cs j = false.
Proof.
  revert i open. induction n as [|n IH]; intros i open Hi Hopen; simpl.
  - destruct open as [a|]; [|by intros ?%elem_of_nil].
    intros ->%list_elem_of_singleton. destruct (Hopen a eq_refl) as [? ?].
    cbn [fst snd]. split_and!; try lia. done.
  - destruct (RangeUtility.claimed cs i) eqn:Hcl.
    + destruct open as [a|].
      * intros [->|Hr]%elem_of_cons.
        -- destruct (Hopen a eq_refl) as [? ?]. cbn [fst snd]. split_and!; try lia. done.
        -- destruct (IH (i + 1) None ltac:(lia) ltac:(done) Hr) as (? & ? & ? & ?).
           split_and!; try lia. done.
      * intros Hr. destruct (IH (i + 1) None ltac:(lia) ltac:(done) Hr) as (? & ? & ? & ?).
        split_and!; try lia. done.
    + intros Hr.
      destruct (IH (i + 1) (match open with Some a => Some a | None => Some i end)
                  ltac:(lia)) with (2 := Hr) as (? & ? & ? & ?).
      * intros a Ha. destruct open as [a'|]; injection Ha as <-.
        -- destruct (Hopen a' eq_refl) as [? Hun]. split; [lia|].
           intros j Hj. destruct (decide (j = i)) as [->|]; [done|]. apply Hun. lia.
        -- split; [lia|]. intros j Hj. by replace j with i by lia.
      * split_and!; try lia. done.
Qed.

Lemma getRestRanges_contract : restRangesContract RangeUtility.getRestRanges.
Proof.
  split.
  - intros n cs r Hr. unfold RangeUtility.getRestRanges in Hr.
    destruct (runs_spec cs _ 0 None r ltac:(lia) ltac:(done) Hr) as (? & ? & ? & _).
    destruct (Z.le_gt_cases 0 n); [lia|].
    replace (Z.to_nat n) with 0%nat in Hr by lia. by apply elem_of_nil in Hr.
  - intros n cs r c i Hr Hc Hi. unfold RangeUtility.getRestRanges in Hr.
    destruct (runs_spec cs _ 0 None r ltac:(lia) ltac:(done) Hr) as (_ & _ & _ & Hun).
    by apply (claimed_false cs i c (Hun i Hi)).
Qed.

(** ** Two worked examples *)

(** The score recorded so far is the one of the position before: on the
    source "babaa" with the word "baaa", the pass of the letter 2 leaves
    the score 9 at position 5, and the pass of the letter 3 writes there
    the score 8 of its extension, which it compares with the score 0 of
    position 4. *)
Lemma score_of_previous_letter_is_not_consulted :
  let s := Js.ofString "babaa" in
  let t := Js.ofString "baaa" in
  let bnd := boundary (identityMapping s) in
  exists st st',
    scan 0 s t = [0; 1; 3; 4]%nat
    /\ dpOuter s bnd t 0 0 0 [0; 1; 3]%nat (dpInit s t) = Normal st
    /\ dpScores st !! 5%nat = Some 9
    /\ dpPass s bnd t 0 0 3 4 st = Normal st'
    /\ dpScores st' !! 4%nat = Some 0
    /\ dpScores st' !! 5%nat = Some 8.
Proof. eexists _, _. split_and!; vm_compute; reflexivity. Qed.

(** The string of the one character with the readings "de" and "di":
    there a word is matched inside one reading, and the words below
    that need letters of both readings are not matched. *)
Lemma deDi_examples :
  searchByBoundaryMapping deDi (Js.ofString "de") 0 1 = Normal (Return137 [(0, 0)])
  /\ searchByBoundaryMapping deDi (Js.ofString "di") 0 1 = Normal (Return137 [(0, 0)])
  /\ searchByBoundaryMapping deDi (Js.ofString "dd") 0 1 = Normal Return129
  /\ searchByBoundaryMapping deDi (Js.ofString "dei") 0 1 = Normal Return129
  /\ searchByBoundaryMapping deDi (Js.ofString "dedi") 0 1 = Normal Return129.
Proof. repeat split. Qed.

Lemma deieDeDi_wf : wf_data deieDeDi.
Proof.
  split; simpl.
  - reflexivity.
  - reflexivity.
  - intros i o H.
    do 6 (destruct i as [|i]; [injection H as <-; lia|]). discriminate.
  - intros i j a b Hij Ha Hb.
    do 6 (destruct i as [|i];
          [injection Ha as <-;
           do 6 (destruct j as [|j]; [injection Hb as <-; lia|]); discriminate|]).
    discriminate.
  - intros p q x y Hpq Hx Hy.
    do 9 (destruct p as [|p];
          [injection Hx as <-;
           do 9 (destruct q as [|q]; [injection Hy as <-; simpl; lia|]); discriminate|]).
    discriminate.
  - intros i j k a b x Ha Hb Hk Hx.
    do 8 (destruct k as [|k];
          [injection Hx as <-;
           do 6 (destruct i as [|i];
                 [injection Ha as <-;
                  do 6 (destruct j as [|j]; [injection Hb as <-; simpl; lia|]);
                  discriminate|]);
           discriminate|]).
    discriminate.
Qed.

(** C7: the returned match can use two readings of one character.  On
    the well-formed mapping [deieDeDi] and the sub-range of all its
    characters, the word "dide" is answered with the two ranges
    [[4, 4]; [4, 4]]: all four letters are attributed to the character
    4.  That character has the readings "de" and "di" only; the letter
    i is in no reading but "di" and the letter e in no reading but
    "de", so the letters of the match come from both readings.  The
    last row of the path table shows how: the cell of the letters
    "di" is the run on the reading "di", and the cell of the letters
    "dide", from which the backtracking starts, is the run "de" on the
    reading "de".  The entry point gives the same answer. *)
Theorem returned_match_mixes_readings :
  searchByBoundaryMapping deieDeDi (Js.ofString "dide") 0 5
  = Normal (Return137 [(4, 4); (4, 4)])
  /\ Forall (fun b : Z * Z => b.1 = 4 -> b = (4, 4) \/ b = (4, 6)) (boundary deieDeDi)
  /\ lettersOfReading deieDeDi (4, 4) = Js.ofString "de"
  /\ lettersOfReading deieDeDi (4, 6) = Js.ofString "di"
  /\ ~ In 105%N (lettersOfReading deieDeDi (4, 4))
  /\ ~ In 101%N (lettersOfReading deieDeDi (4, 6))
  /\ (exists st,
        dpOuter (pinyinString deieDeDi) (boundary deieDeDi) (Js.ofString "dide") 0 0 0
          (scan 0 (pinyinString deieDeDi) (Js.ofString "dide"))
          (dpInit (pinyinString deieDeDi) (Js.ofString "dide")) = Normal st
        /\ dpMatchPath st !! 8%nat
           = Some [Some (0, 0, 1); Some (4, 4, 2); Some (4, 4, 1); Some (4, 4, 2)])
  /\ searchEntry RangeUtility.getRestRanges (originalString deieDeDi)
       (Js.ofString "dide") (fun _ => deieDeDi)
     = Normal (Some [(4, 4); (4, 4)]).
Proof.
  split_and!.
  - reflexivity.
  - repeat (apply List.Forall_cons;
            [intros H; simpl in H; first [lia | by left | by right]|]).
    apply List.Forall_nil.
  - reflexivity.
  - reflexivity.
  - simpl. intros [H|[H|[]]]; discriminate.
  - simpl. intros [H|[H|[]]]; discriminate.
  - eexists. split; [vm_compute; reflexivity|reflexivity].
  - reflexivity.
Qed.

(** The matcher relies on its caller for the sub-range: with an end
    index beyond [originalIndices] the boundary slice is empty and the
    read of line 20 throws, and with a start index beyond it the slice
    starts at the beginning of the string while the ranges are shifted
    by the start index. *)
Lemma outside_a_sub_range :
  searchByBoundaryMapping (identityMapping (Js.ofString "abc")) (Js.ofString "a") 0 100
  = Throws
  /\ searchByBoundaryMapping (identityMapping (Js.ofString "abc")) (Js.ofString "a") 10 3
     = Normal (Return137 [(10, 10)]).
Proof. split; reflexivity. Qed.

(** ** The theorems on concrete inputs *)

(** The first turn of the letter d of "nod" on "no_node", at the d of
    "node": the predecessor is the entry that the letters n and o left
    at position 5, two matched letters with the running score 4. *)
Lemma accepted_extension_score_witness :
  exists s st',
    dpOuter (Js.ofString "no_node") (boundary (identityMapping (Js.ofString "no_node")))
      (Js.ofString "nod") 0 0 0 [0; 1]%nat
      (dpInit (Js.ofString "no_node") (Js.ofString "nod")) = Normal s
    /\ dpTable s !! 5%nat = Some (2, 2, 4, 4)
    /\ dpScores s !! 5%nat = Some 4
    /\ dpStep (Js.ofString "no_node") (boundary (identityMapping (Js.ofString "no_node")))
         (Js.ofString "nod") 0 0 2 6 ((2, 2, 4, 4), 4)
         {| dpTable := <[5%nat := defaultDpTableValue]> (dpTable s);
            dpScores := <[5%nat := 0]> (dpScores s);
            dpMatchPath := dpMatchPath s |}
       = Normal (defaultDpTableValue, 4, st')
    /\ dpScores st' !! 6%nat = Some (4 + (2 * 2 + 1))
    /\ ((0 < 2)%nat -> 0 < 4).
Proof.
  eexists _, _. split; [vm_compute; reflexivity|].
  split; [reflexivity|]. split; [reflexivity|].
  match goal with
  | |- dpStep _ _ _ _ _ _ _ _ ?st = Normal (_, _, ?st') /\ _ =>
      split; [vm_compute; reflexivity|];
      apply (accepted_extension_score (Js.ofString "no_node")
               (boundary (identityMapping (Js.ofString "no_node")))
               (Js.ofString "nod") 0 0 2 6 2 2 4 4 4 st defaultDpTableValue 4 st' (5, 5) 0)
  end.
  - vm_compute. reflexivity.
  - reflexivity.
  - reflexivity.
  - reflexivity.
Defined.

(** Three turns of runs of the matcher.  A tie: the second a of "aa"
    for the word "a", whose extension has the score 1 that the first a
    has left at position 1; the score and the table entry are written
    and the cell of the first a is kept.  A rejected extension: the second o of "noxo" for
    the letter o of "no", whose extension has the score 2 against the
    score 4 of the run "no"; score and cell are those of position 3.  A
    strictly greater score: the second o of "nxono" for the letter o of
    "no", whose extension has the score 4 against the score 2 of the
    first o; the cell of the first o is replaced. *)
Lemma overwrite_rule_witness :
  (exists st st',
     dpInner (Js.ofString "aa") (boundary (identityMapping (Js.ofString "aa")))
       (Js.ofString "a") 0 0 1 0 1 (defaultDpTableValue, 0)
       (dpInit (Js.ofString "aa") (Js.ofString "a")) = Normal st
     /\ dpStep (Js.ofString "aa") (boundary (identityMapping (Js.ofString "aa")))
          (Js.ofString "a") 0 0 0 2 (defaultDpTableValue, 0) st
        = Normal (defaultDpTableValue, 0, st')
     /\ dpScores st !! 1%nat = Some 1
     /\ dpMatchPath st !! 1%nat = Some [Some (0, 0, 1)]
     /\ extends_ (Js.ofString "aa") (Js.ofString "a") 0 0 0 2 (1, 1)
          defaultDpTableValue 0 = true
     /\ extendedScore defaultDpTableValue 0 = 1
     /\ dpTable st' !! 2%nat = Some (1, 1, 1, 1)
     /\ dpScores st' !! 2%nat = Some 1
     /\ exists row',
         dpMatchPath st' !! 2%nat = Some row' /\ cellAt row' 0 = Some (0, 0, 1))
  /\ (exists s st st',
        dpPass (Js.ofString "noxo") (boundary (identityMapping (Js.ofString "noxo")))
          (Js.ofString "no") 0 0 0 0
          (dpInit (Js.ofString "noxo") (Js.ofString "no")) = Normal s
        /\ dpInner (Js.ofString "noxo") (boundary (identityMapping (Js.ofString "noxo")))
             (Js.ofString "no") 0 0 2 1 2 ((1, 1, 0, 0), 1)
             {| dpTable := <[1%nat := defaultDpTableValue]> (dpTable s);
                dpScores := <[1%nat := 0]> (dpScores s);
                dpMatchPath := dpMatchPath s |} = Normal st
        /\ dpTable s !! 3%nat = Some defaultDpTableValue
        /\ dpScores s !! 3%nat = Some 1
        /\ dpStep (Js.ofString "noxo") (boundary (identityMapping (Js.ofString "noxo")))
             (Js.ofString "no") 0 0 1 4 (defaultDpTableValue, 1) st
           = Normal (defaultDpTableValue, 1, st')
        /\ dpScores st !! 3%nat = Some 4
        /\ dpMatchPath st !! 3%nat = Some [Some (0, 0, 1); Some (0, 1, 2)]
        /\ extends_ (Js.ofString "noxo") (Js.ofString "no") 0 0 1 4 (3, 3)
             defaultDpTableValue 1 = true
        /\ extendedScore defaultDpTableValue 1 = 2
        /\ dpScores st' !! 4%nat = Some 4
        /\ exists row',
            dpMatchPath st' !! 4%nat = Some row' /\ cellAt row' 1 = Some (0, 1, 2))
  /\ (exists s st st',
        dpPass (Js.ofString "nxono") (boundary (identityMapping (Js.ofString "nxono")))
          (Js.ofString "no") 0 0 0 0
          (dpInit (Js.ofString "nxono") (Js.ofString "no")) = Normal s
        /\ dpInner (Js.ofString "nxono") (boundary (identityMapping (Js.ofString "nxono")))
             (Js.ofString "no") 0 0 2 1 3 (defaultDpTableValue, 1)
             {| dpTable := <[2%nat := defaultDpTableValue]> (dpTable s);
                dpScores := <[2%nat := 0]> (dpScores s);
                dpMatchPath := dpMatchPath s |} = Normal st
        /\ dpTable s !! 4%nat = Some (1, 1, 3, 3)
        /\ dpScores s !! 4%nat = Some 1
        /\ dpStep (Js.ofString "nxono") (boundary (identityMapping (Js.ofString "nxono")))
             (Js.ofString "no") 0 0 1 5 ((1, 1, 3, 3), 1) st
           = Normal (defaultDpTableValue, 1, st')
        /\ dpScores st !! 4%nat = Some 2
        /\ dpMatchPath st !! 4%nat = Some [Some (0, 0, 1); Some (2, 2, 1)]
        /\ extends_ (Js.ofString "nxono") (Js.ofString "no") 0 0 1 5 (4, 4)
             (1, 1, 3, 3) 1 = true
        /\ extendedScore (1, 1, 3, 3) 1 = 4
        /\ dpScores st' !! 5%nat = Some 4
        /\ exists row',
            dpMatchPath st' !! 5%nat = Some row' /\ cellAt row' 1 = Some (3, 4, 2)).
Proof.
  split_and!.
  - eexists _, _. split; [vm_compute; reflexivity|].
    match goal with
    | |- dpStep _ _ _ _ _ _ _ _ ?st = Normal (_, _, ?st') /\ _ =>
        split; [vm_compute; reflexivity|]; do 5 (split; [reflexivity|]);
        apply (overwrite_rule (Js.ofString "aa")
                 (boundary (identityMapping (Js.ofString "aa")))
                 (Js.ofString "a") 0 0 0 2 defaultDpTableValue 0 st
                 defaultDpTableValue 0 st' (1, 1) 1 [Some (0, 0, 1)])
    end.
    + vm_compute. reflexivity.
    + reflexivity.
    + reflexivity.
    + reflexivity.
  - eexists _, _, _. split; [vm_compute; reflexivity|].
    split; [vm_compute; reflexivity|]. do 2 (split; [reflexivity|]).
    match goal with
    | |- dpStep _ _ _ _ _ _ _ _ ?st = Normal (_, _, ?st') /\ _ =>
        split; [vm_compute; reflexivity|]; do 4 (split; [reflexivity|]);
        apply (overwrite_rule (Js.ofString "noxo")
                 (boundary (identityMapping (Js.ofString "noxo")))
                 (Js.ofString "no") 0 0 1 4 defaultDpTableValue 1 st
                 defaultDpTableValue 1 st' (3, 3) 4 [Some (0, 0, 1); Some (0, 1, 2)])
    end.
    + vm_compute. reflexivity.
    + reflexivity.
    + reflexivity.
    + reflexivity.
  - eexists _, _, _. split; [vm_compute; reflexivity|].
    split; [vm_compute; reflexivity|]. do 2 (split; [reflexivity|]).
    match goal with
    | |- dpStep _ _ _ _ _ _ _ _ ?st = Normal (_, _, ?st') /\ _ =>
        split; [vm_compute; reflexivity|]; do 4 (split; [reflexivity|]);
        apply (overwrite_rule (Js.ofString "nxono")
                 (boundary (identityMapping (Js.ofString "nxono")))
                 (Js.ofString "no") 0 0 1 5 (1, 1, 3, 3) 1 st
                 defaultDpTableValue 1 st' (4, 4) 2 [Some (0, 0, 1); Some (2, 2, 1)])
    end.
    + vm_compute. reflexivity.
    + reflexivity.
    + reflexivity.
    + reflexivity.
Defined.

Lemma reading_is_kept_witness :
  exists st',
    dpStep (Js.ofString "dedi") (boundary deDi) (Js.ofString "dd") 0 0
      1 3 ((1, 1, 0, 0), 1) (dpInit (Js.ofString "dedi") (Js.ofString "dd"))
    = Normal (defaultDpTableValue, 0, st')
    /\ extends_ (Js.ofString "dedi") (Js.ofString "dd") 0 0 1 3 (0, 2) (1, 1, 0, 0) 1 = false
    /\ carryForward (Js.ofString "dedi") (boundary deDi) 0 1 3 (0, 2)
         (dpInit (Js.ofString "dedi") (Js.ofString "dd")) = Normal st'.
Proof.
  eexists. split; [vm_compute; reflexivity|].
  match goal with
  | |- _ /\ _ = Normal ?st' =>
      destruct (reading_is_kept (Js.ofString "dedi") (boundary deDi) (Js.ofString "dd") 0 0
                  1 3 1 1 0 0 1 (dpInit (Js.ofString "dedi") (Js.ofString "dd"))
                  defaultDpTableValue 0 st' (0, 2)) as [Hext Hstep]
  end.
  - reflexivity.
  - reflexivity.
  - discriminate.
  - split; [exact Hext|]. apply Hstep. vm_compute. reflexivity.
Defined.

Lemma words_are_placed_apart_witness :
  (searchSentenceByBoundaryMapping RangeUtility.getRestRanges
     (identityMapping (Js.ofString "abcdef")) (Js.ofString "ce ab")
   = Normal (Some [(2, 2); (4, 4); (0, 1)])
   /\ exists perWord,
       Placed RangeUtility.getRestRanges (identityMapping (Js.ofString "abcdef"))
         [Js.ofString "ce"; Js.ofString "ab"] [] perWord
       /\ [(2, 2); (4, 4); (0, 1)] = concat perWord
       /\ pairwiseDisjoint perWord)
  /\ searchSentenceByBoundaryMapping RangeUtility.getRestRanges
       (identityMapping (Js.ofString "abcdef")) (Js.ofString "ce  bd")
     = Normal None.
Proof.
  split.
  - split; [reflexivity|].
    destruct (words_are_placed_apart RangeUtility.getRestRanges getRestRanges_contract
                (identityMapping (Js.ofString "abcdef")) (Js.ofString "ce ab")
                (identityMapping_wf _)) as [Hhit _].
    destruct (Hhit [(2, 2); (4, 4); (0, 1)] eq_refl) as [Hlit|Hplaced].
    + discriminate Hlit.
    + exact Hplaced.
  - destruct (words_are_placed_apart RangeUtility.getRestRanges getRestRanges_contract
                (identityMapping (Js.ofString "abcdef")) (Js.ofString "ce  bd")
                (identityMapping_wf _)) as [_ Hmiss].
    apply (Hmiss [Js.ofString "ce"] (Js.ofString "bd") [] [(2, 2); (4, 4)]).
    + discriminate.
    + reflexivity.
    + reflexivity.
    + reflexivity.
    + intros r Hr. vm_compute in Hr.
      repeat (apply elem_of_cons in Hr as [->|Hr]; [eexists; split; reflexivity|]).
      by apply elem_of_nil in Hr.
Defined.

Lemma search_returns_witness :
  returns (searchByBoundaryMapping (identityMapping (Js.ofString "no_node"))
             (Js.ofString "nod") 0 7)
  /\ returns (searchSentenceByBoundaryMapping RangeUtility.getRestRanges
                (identityMapping (Js.ofString "no_node")) (Js.ofString "ne  od"))
  /\ returns (searchEntry RangeUtility.getRestRanges (Js.ofString "no_node")
                (Js.ofString "ne  od") identityMapping).
Proof.
  apply (search_returns RangeUtility.getRestRanges getRestRanges_contract
           (identityMapping (Js.ofString "no_node")) (Js.ofString "nod") 0 7
           (Js.ofString "ne  od") (Js.ofString "no_node") identityMapping).
  - apply identityMapping_wf.
  - unfold validRange. simpl. lia.
  - apply identityMapping_wf.
Defined.

(** * Further properties of the code *)

(** ** The literal fast path *)

Lemma indexOfFrom_absent s w i :
  (forall k, ~ occursAt s w k) -> Js.indexOfFrom i s w = -1.
Proof.
  revert i. induction s as [|c s IH]; intros i Hno; simpl.
  - destruct (Js.startsWith [] w) eqn:Hsw; [|done].
    exfalso. apply (Hno 0). by apply occursAt_zero.
  - destruct (Js.startsWith (c :: s) w) eqn:Hsw.
    + exfalso. apply (Hno 0). by apply occursAt_zero.
    + apply IH. intros k Hk. apply (Hno (k + 1)).
      apply occursAt_cons; [pose proof (occursAt_nonneg _ _ _ Hk); lia|].
      by replace (k + 1 - 1) with k by lia.
Qed.

Lemma occurs_dec s w :
  (exists k, occursAt s w k) \/ (forall k, ~ occursAt s w k).
Proof.
  induction s as [|c s IH].
  - destruct (Js.startsWith [] w) eqn:Hsw.
    + left. exists 0. by apply occursAt_zero.
    + right. intros k (pre & post & Heq & _). destruct pre, w; discriminate.
  - destruct (Js.startsWith (c :: s) w) eqn:Hsw.
    + left. exists 0. by apply occursAt_zero.
    + assert (Hpos : forall j, occursAt (c :: s) w j -> 0 < j).
      { intros j Hj. pose proof (occursAt_nonneg _ _ _ Hj).
        destruct (decide (j = 0)) as [->|]; [|lia].
        apply occursAt_zero in Hj. congruence. }
      destruct IH as [[k Hk]|Hno].
      * left. exists (k + 1).
        apply occursAt_cons; [pose proof (occursAt_nonneg _ _ _ Hk); lia|].
        by replace (k + 1 - 1) with k by lia.
      * right. intros j Hj. pose proof (Hpos _ Hj).
        apply occursAt_cons in Hj; [|done]. by apply (Hno (j - 1)).
Qed.

Lemma searchWithIndexof_cases source target :
  match searchWithIndexof source target with
  | Some m =>
      exists i, leftmostAt source (Js.trim target) i
                /\ m = [(i, i + Z.of_nat (length target) - 1)]
  | None => forall i, ~ occursAt source (Js.trim target) i
  end.
Proof.
  unfold searchWithIndexof, Js.indexOf.
  destruct (Z.eqb_spec (Js.indexOfFrom 0 source (Js.trim target)) (-1)) as [Heq|Hne].
  - intros i Hi.
    destruct (indexOfFrom_found source (Js.trim target) 0 i Hi) as (k0 & [Hk0 _] & Hk).
    pose proof (occursAt_nonneg _ _ _ Hk0). lia.
  - destruct (occurs_dec source (Js.trim target)) as [[k Hk]|Hno].
    + destruct (indexOfFrom_found source (Js.trim target) 0 k Hk) as (k0 & Hleft & Hk0).
      exists k0. split; [done|]. rewrite Hk0. by rewrite Z.add_0_l.
    + by rewrite (indexOfFrom_absent _ _ 0 Hno) in Hne.
Qed.

(** X1: [searchWithIndexof] answers with a matrix exactly when the
    trimmed query occurs in the source; the matrix is then the single
    range that starts at the leftmost occurrence of the trimmed query
    and has the length of the untrimmed query.  When the trimmed query
    occurs nowhere the answer is falsy. *)
Theorem searchWithIndexof_spec source target :
  match searchWithIndexof source target with
  | Some m =>
      exists i, leftmostAt source (Js.trim target) i
                /\ m = [(i, i + Z.of_nat (length target) - 1)]
  | None => forall i, ~ occursAt source (Js.trim target) i
  end.
Proof. apply searchWithIndexof_cases. Qed.

Lemma slice_middle {A} (pre w post : list A) :
  Js.slice (pre ++ w ++ post) (Z.of_nat (length pre))
    (Z.of_nat (length pre) + Z.of_nat (length w)) = w.
Proof.
  unfold Js.slice, Js.relIndex. rewrite !length_app.
  destruct (Z.ltb_spec (Z.of_nat (length pre)) 0); [lia|].
  destruct (Z.ltb_spec (Z.of_nat (length pre) + Z.of_nat (length w)) 0); [lia|].
  rewrite !Z.min_l by lia.
  rewrite Nat2Z.id, drop_app_length.
  replace (Z.to_nat (Z.of_nat (length pre) + Z.of_nat (length w) - Z.of_nat (length pre)))
    with (length w) by lia.
  by rewrite take_app_length.
Qed.

(** X2: when the query is not empty and neither begins nor ends with
    white space, the range that [searchWithIndexof] returns lies inside
    the source and the characters of the source in that range spell the
    query. *)
Theorem literal_range_spells_query source target a b :
  target <> [] -> Js.trim target = target ->
  searchWithIndexof source target = Some [(a, b)] ->
  0 <= a /\ a <= b /\ b < Z.of_nat (length source)
  /\ Js.slice source a (b + 1) = target.
Proof.
  intros Hne Htrim Hs. pose proof (searchWithIndexof_cases source target) as Hspec.
  rewrite Hs, Htrim in Hspec. destruct Hspec as (i & [Hocc _] & Heq).
  injection Heq as -> ->. destruct Hocc as (pre & post & -> & <-).
  assert (0 < Z.of_nat (length target)) by (destruct target; [done|simpl; lia]).
  rewrite !length_app. split_and!; try lia.
  replace (Z.of_nat (length pre) + Z.of_nat (length target) - 1 + 1)
    with (Z.of_nat (length pre) + Z.of_nat (length target)) by lia.
  apply slice_middle.
Qed.

Lemma literal_range_spells_query_witness :
  searchWithIndexof (Js.ofString "no_node") (Js.ofString "nod") = Some [(3, 5)]
  /\ (0 <= 3 /\ 3 <= 5 /\ 5 < 7
      /\ Js.slice (Js.ofString "no_node") 3 (5 + 1) = Js.ofString "nod").
Proof.
  split; [reflexivity|].
  apply (literal_range_spells_query (Js.ofString "no_node") (Js.ofString "nod") 3 5).
  - discriminate.
  - reflexivity.
  - reflexivity.
Defined.

(** X3: the entry point is the sentence level, but for the guard of the
    empty query: for a query that is not empty and a provider that keeps
    the source as [originalString], [searchEntry] returns what
    [searchSentenceByBoundaryMapping] returns on the provided mapping. *)
Theorem entry_is_sentence_level getRestRanges source target
    (getBoundaryMapping : list N -> SourceMappingData) :
  target <> [] ->
  originalString (getBoundaryMapping source) = source ->
  searchEntry getRestRanges source target getBoundaryMapping
  = searchSentenceByBoundaryMapping getRestRanges (getBoundaryMapping source) target.
Proof.
  intros Hne Hsrc. unfold searchEntry, searchSentenceByBoundaryMapping. rewrite Hsrc.
  destruct target; [done|]. simpl length. cbn [Nat.eqb].
  by destruct (searchWithIndexof _ _).
Qed.

Lemma entry_is_sentence_level_witness :
  searchEntry RangeUtility.getRestRanges (Js.ofString "abcdef") (Js.ofString "ce ab")
    identityMapping
  = searchSentenceByBoundaryMapping RangeUtility.getRestRanges
      (identityMapping (Js.ofString "abcdef")) (Js.ofString "ce ab").
Proof.
  apply (entry_is_sentence_level RangeUtility.getRestRanges (Js.ofString "abcdef")
           (Js.ofString "ce ab") identityMapping).
  - discriminate.
  - reflexivity.
Defined.

(** ** The words of a sentence *)

Lemma endsPlain_cons cur cur' c s :
  endsPlain cur (c :: s) -> (s = [] -> notWhiteSpace c -> cur' <> []) ->
  (s = [] -> Js.isWhiteSpace c = true -> False) /\ endsPlain cur' s.
Proof.
  unfold endsPlain. rewrite reverse_cons.
  destruct (reverse s) as [|c' r] eqn:Hr; simpl.
  - assert (s = []) as ->.
    { apply (f_equal reverse) in Hr. by rewrite reverse_involutive in Hr. }
    intros Hc Hcur. split; [|by apply Hcur].
    intros _ Hws. unfold notWhiteSpace in Hc. congruence.
  - intros Hc _. split; [|done]. intros ->. by rewrite reverse_nil in Hr.
Qed.

Lemma splitLoop_plain cur sep s :
  Forall notWhiteSpace cur -> startsPlain cur s sep -> endsPlain cur s ->
  Forall plainWord (Js.splitLoop cur sep s).
Proof.
  revert cur sep. induction s as [|c s IH]; intros cur sep Hcur Hstart Hend; simpl.
  - constructor; [|done]. split.
    + unfold endsPlain in Hend. rewrite reverse_nil in Hend.
      intros Hr. apply Hend. apply (f_equal reverse) in Hr.
      by rewrite reverse_involutive in Hr.
    + by apply Forall_reverse.
  - destruct (Js.isWhiteSpace c) eqn:Hc.
    + destruct (endsPlain_cons cur [] c s Hend) as [Hlast Hend'].
      { intros _ Hn. unfold notWhiteSpace in Hn. congruence. }
      assert (Hs : s <> []) by (intros ->; by apply Hlast).
      assert (Hends : forall cur', endsPlain cur' s).
      { intros cur'. unfold endsPlain in *. destruct (reverse s) eqn:Hr; [|done].
        apply (f_equal reverse) in Hr. by rewrite reverse_involutive in Hr. }
      destruct sep.
      * apply IH; [done|done|apply Hends].
      * assert (Hne : cur <> []).
        { intros ->. specialize (Hstart eq_refl eq_refl). simpl in Hstart.
          unfold notWhiteSpace in Hstart. congruence. }
        constructor.
        -- split; [|by apply Forall_reverse].
           intros Hr. apply Hne. apply (f_equal reverse) in Hr.
           by rewrite reverse_involutive in Hr.
        -- apply IH; [done|done|apply Hends].
    + apply IH.
      * by constructor.
      * intros _ [=].
      * by apply (endsPlain_cons cur (c :: cur) c s Hend).
Qed.

Lemma trimStart_head s :
  match Js.trimStart s with
  | c :: _ => notWhiteSpace c
  | [] => True
  end.
Proof.
  induction s as [|c s IH]; simpl; [done|].
  destruct (Js.isWhiteSpace c) eqn:Hc; [done|done].
Qed.

Lemma trimStart_suffix s : exists pre, s = pre ++ Js.trimStart s.
Proof.
  induction s as [|c s [pre IH]]; simpl; [by exists []|].
  destruct (Js.isWhiteSpace c).
  - exists (c :: pre). simpl. by f_equal.
  - by exists [].
Qed.

Lemma trim_plain_ends s :
  Js.trim s <> [] -> startsPlain [] (Js.trim s) false /\ endsPlain [] (Js.trim s).
Proof.
  intros Hne. unfold Js.trim, Js.trimEnd in *.
  set (y := Js.trimStart s) in *.
  destruct (trimStart_suffix (reverse y)) as [pre Hpre].
  pose proof (trimStart_head (reverse y)) as Hhead.
  set (z := Js.trimStart (reverse y)) in *.
  split.
  - intros _ _. assert (Hy : y = reverse z ++ reverse pre).
    { apply (f_equal reverse) in Hpre.
      by rewrite reverse_involutive, reverse_app in Hpre. }
    pose proof (trimStart_head s) as Hys. fold y in Hys.
    destruct (reverse z) as [|c r] eqn:Hr; [done|].
    rewrite Hy in Hys. done.
  - unfold endsPlain. rewrite reverse_involutive.
    destruct z as [|c z']; [|done]. by rewrite reverse_nil in Hne.
Qed.

(** X4: whenever the sentence level goes on to split the query, that
    is, when the literal search of line 142 fails, every word that it
    hands to the matcher of one word is not empty and contains no white
    space, as the documentation of the matcher (line 8) requires. *)
Theorem words_are_plain source sentence :
  searchWithIndexof source sentence = None ->
  Forall plainWord (Js.splitWhiteSpace (Js.trim sentence)).
Proof.
  intros Hlit.
  assert (Hne : Js.trim sentence <> []).
  { intros Htrim. unfold searchWithIndexof, Js.indexOf in Hlit. rewrite Htrim in Hlit.
    by destruct source. }
  destruct (trim_plain_ends sentence Hne) as [Hstart Hend].
  by apply splitLoop_plain.
Qed.

Lemma words_are_plain_witness :
  Forall plainWord (Js.splitWhiteSpace (Js.trim (Js.ofString " ce   ab "))).
Proof.
  apply (words_are_plain (Js.ofString "abcdef") (Js.ofString " ce   ab ")).
  reflexivity.
Defined.

(** ** The return statements of the matcher *)

Lemma matchWord_site pinyin bnd target startBoundary endBoundary startIndex r :
  matchWord pinyin bnd target startBoundary endBoundary startIndex = Normal r ->
  (r = Return33 /\ (length (scan 0 pinyin target) < length target)%nat)
  \/ (length (scan 0 pinyin target) = length target
      /\ exists st row,
          dpOuter pinyin bnd target startBoundary endBoundary 0 (scan 0 pinyin target)
            (dpInit pinyin target) = Normal st
          /\ dpMatchPath st !! length pinyin = Some row
          /\ ((r = Return129 /\ cellAt row (Z.of_nat (length target) - 1) = None)
              \/ exists hits,
                  r = Return137 hits
                  /\ backtrack (length target) row (Z.of_nat (length target) - 1)
                       startIndex [] = Normal hits)).
Proof.
  unfold matchWord. intros H.
  destruct (Nat.ltb_spec (length (scan 0 pinyin target)) (length target)) as [Hlt|Hge].
  { left. by injection H as <-. }
  right. pose proof (scan_length_le 0 pinyin target). split; [lia|].
  destruct (dpOuter _ _ _ _ _ _ _ _) as [st| |]; cbn [mbind Completion_bind] in H;
    try discriminate.
  read_must H. exists st. eexists. split; [done|]. split; [done|].
  destruct (cellAt _ _) as [c|]; [|left; by injection H as <-].
  destruct (backtrack _ _ _ _ _) as [hits| |]; cbn [mbind Completion_bind] in H;
    try discriminate.
  right. exists hits. by injection H as <-.
Qed.

Lemma search_site d target startIndex endIndex r :
  searchByBoundaryMapping d target startIndex endIndex = Normal r ->
  (r = Return17
   /\ (target = [] \/ (length (pinyinSlice d startIndex endIndex) < length target)%nat
       \/ originalLength d = 0))
  \/ (target <> []
      /\ (length target <= length (pinyinSlice d startIndex endIndex))%nat
      /\ originalLength d <> 0
      /\ exists first,
          boundarySlice d startIndex endIndex !! 1%nat = Some first
          /\ matchWord (pinyinSlice d startIndex endIndex)
               (boundarySlice d startIndex endIndex) target first.1 first.2 startIndex
             = Normal r).
Proof.
  unfold searchByBoundaryMapping. intros H.
  destruct (Nat.eqb_spec (length target) 0) as [Hq|Hq]; cbn [orb] in H.
  { left. injection H as <-. split; [done|]. left. by destruct target. }
  destruct (Nat.ltb_spec (length (pinyinSlice d startIndex endIndex)) (length target))
    as [Hp|Hp]; cbn [orb] in H.
  { left. injection H as <-. split; [done|]. right. by left. }
  destruct (Z.eqb_spec (originalLength d) 0) as [Hn|Hn].
  { left. injection H as <-. split; [done|]. right. by right. }
  right. read_must H. split_and!; try done.
  - intros ->. done.
  - eauto.
Qed.

(** X5: whatever the mapping is, well formed or not, a matrix is
    returned by [searchByBoundaryMapping] only for a word that is not
    empty and whose letters occur in order in the transliteration slice
    of the sub-range, and only for a mapping whose [originalLength] is
    not 0. *)
Theorem hit_needs_subsequence d target startIndex endIndex hits :
  searchByBoundaryMapping d target startIndex endIndex = Normal (Return137 hits) ->
  target <> [] /\ originalLength d <> 0
  /\ Subseq target (pinyinSlice d startIndex endIndex).
Proof.
  intros H. apply search_site in H as [[[=] _]|(Hne & _ & Hn & first & _ & Hm)].
  split_and!; try done.
  apply matchWord_site in Hm as [[[=] _]|[Hscan _]]. by apply (scan_sound 0).
Qed.

Lemma hit_needs_subsequence_witness :
  searchByBoundaryMapping (identityMapping (Js.ofString "tetmplpimpo")) (Js.ofString "emp")
    0 11 = Normal (Return137 [(1, 1); (3, 4)])
  /\ (Js.ofString "emp" <> [] /\ (11 : Z) <> 0
      /\ Subseq (Js.ofString "emp") (Js.ofString "tetmplpimpo")).
Proof.
  split; [reflexivity|].
  apply (hit_needs_subsequence (identityMapping (Js.ofString "tetmplpimpo"))
           (Js.ofString "emp") 0 11 [(1, 1); (3, 4)]).
  reflexivity.
Defined.

(** X6: on a well-formed mapping and a sub-range of its characters the
    two early returns are taken exactly in these cases: the return of
    line 17 when the word is empty, or longer than the transliteration
    slice, or [originalLength] is 0; the return of line 33 when none of
    these holds and the word is not a subsequence of the slice.  In
    every other case the scoring DP runs. *)
Theorem early_returns d target startIndex endIndex :
  wf_data d -> validRange d startIndex endIndex ->
  let guard := target = []
               \/ (length (pinyinSlice d startIndex endIndex) < length target)%nat
               \/ originalLength d = 0 in
  (searchByBoundaryMapping d target startIndex endIndex = Normal Return17 <-> guard)
  /\ (searchByBoundaryMapping d target startIndex endIndex = Normal Return33
      <-> ~ guard /\ ~ Subseq target (pinyinSlice d startIndex endIndex)).
Proof.
  intros Hwf Hr guard.
  destruct (searchByBoundaryMapping_within d target _ _ Hwf Hr) as (r & Hs & _).
  rewrite Hs. pose proof (search_site d target _ _ r Hs) as Hsite.
  destruct Hsite as [[-> Hg]|(Hne & Hlen & Hn & first & _ & Hm)].
  - split; [done|]. split; [done|]. by intros [Hng _].
  - assert (Hng : ~ guard) by (unfold guard; intros [?|[?|?]]; [done|lia|done]).
    apply matchWord_site in Hm as [[-> Hlt]|[Hscan (st & row & _ & _ & Hr')]].
    + split; [split; [done|by intros ?]|]. split; [|done]. intros _. split; [done|].
      intros Hsub. apply (scan_complete 0) in Hsub. lia.
    + apply (scan_sound 0) in Hscan.
      destruct Hr' as [[-> _]|(hits & -> & _)].
      * split; [split; [done|by intros ?]|]. split; [done|]. by intros [_ ?].
      * split; [split; [done|by intros ?]|]. split; [done|]. by intros [_ ?].
Qed.

Lemma early_returns_witness :
  (searchByBoundaryMapping (identityMapping (Js.ofString "no_node")) (Js.ofString "dn") 0 7
   = Normal Return17
   <-> Js.ofString "dn" = [] \/ (7 < 2)%nat \/ (7 : Z) = 0)
  /\ (searchByBoundaryMapping (identityMapping (Js.ofString "no_node")) (Js.ofString "dn") 0 7
      = Normal Return33
      <-> ~ (Js.ofString "dn" = [] \/ (7 < 2)%nat \/ (7 : Z) = 0)
          /\ ~ Subseq (Js.ofString "dn") (Js.ofString "no_node")).
Proof.
  apply (early_returns (identityMapping (Js.ofString "no_node")) (Js.ofString "dn") 0 7).
  - apply identityMapping_wf.
  - unfold validRange. simpl. lia.
Defined.

(** ** The sentence level *)

(** X7: the loop of lines 152 to 159 tries the remaining ranges in
    order and stops at the first one in which the word is found: when
    it yields a hit, the hit is the one of some range of the list, and
    the word is found in none of the ranges before it. *)
Theorem first_range_wins d word restRanges hit :
  tryRanges d word restRanges = Normal (Some hit) ->
  exists before r after,
    restRanges = before ++ r :: after
    /\ searchByBoundaryMapping d word r.1 r.2 = Normal (Return137 hit)
    /\ Forall (fun r' => exists ret,
                 searchByBoundaryMapping d word r'.1 r'.2 = Normal ret
                 /\ valueOf ret = None) before.
Proof.
  induction restRanges as [|r rs IH]; simpl; [done|].
  destruct (searchByBoundaryMapping d word r.1 r.2) as [ret| |] eqn:Hs;
    cbn [mbind Completion_bind]; try done.
  destruct (valueOf ret) as [h|] eqn:Hv.
  - intros [= <-]. destruct ret; try discriminate. injection Hv as ->.
    exists [], r, rs. by split_and!.
  - intros H. destruct (IH H) as (before & r' & after & -> & Hr' & Hbefore).
    exists (r :: before), r', after. split_and!; try done.
    constructor; [|done]. eauto.
Qed.

Lemma first_range_wins_witness :
  tryRanges (identityMapping (Js.ofString "abcdef")) (Js.ofString "de") [(0, 3); (3, 6)]
  = Normal (Some [(3, 4)])
  /\ exists before r after,
      [(0, 3); (3, 6)] = before ++ r :: after
      /\ searchByBoundaryMapping (identityMapping (Js.ofString "abcdef")) (Js.ofString "de")
           r.1 r.2 = Normal (Return137 [(3, 4)])
      /\ Forall (fun r' => exists ret,
                   searchByBoundaryMapping (identityMapping (Js.ofString "abcdef"))
                     (Js.ofString "de") r'.1 r'.2 = Normal ret
                   /\ valueOf ret = None) before.
Proof.
  split; [reflexivity|].
  apply (first_range_wins (identityMapping (Js.ofString "abcdef")) (Js.ofString "de")
           [(0, 3); (3, 6)] [(3, 4)]).
  reflexivity.
Defined.

Lemma Placed_inside getRestRanges d words claimedRanges perWord :
  restRangesContract getRestRanges -> wf_data d ->
  Placed getRestRanges d words claimedRanges perWord ->
  Forall (fun x => 0 <= x.1 /\ x.1 <= x.2 /\ x.2 < originalLength d) (concat perWord).
Proof.
  intros Hc Hwf. induction 1 as [|word words claimedRanges r hit perWord Hr Hs _ IH];
    simpl; [done|].
  apply Forall_app. split; [|done].
  pose proof (rest_within _ Hc _ _ _ Hr) as Hvalid.
  destruct (searchByBoundaryMapping_within d word r.1 r.2 Hwf Hvalid) as (ret & Heq & Hhit).
  rewrite Hs in Heq. injection Heq as <-. specialize (Hhit hit eq_refl).
  eapply Forall_impl; [done|]. intros x (? & ? & ?). cbn beta. lia.
Qed.

(** X8: on a well-formed mapping, and with a range utility that meets
    its contract, every range that the sentence level returns after the
    literal search has failed is a range of characters of the string:
    [0 <= start <= end < originalLength]. *)
Theorem sentence_ranges_inside getRestRanges d sentence hits :
  restRangesContract getRestRanges -> wf_data d ->
  searchWithIndexof (originalString d) sentence = None ->
  searchSentenceByBoundaryMapping getRestRanges d sentence = Normal (Some hits) ->
  Forall (fun x => 0 <= x.1 /\ x.1 <= x.2 /\ x.2 < originalLength d) hits.
Proof.
  intros Hc Hwf Hlit. unfold searchSentenceByBoundaryMapping. rewrite Hlit.
  destruct (length sentence =? 0)%nat; [done|].
  intros H. apply placeWords_Placed in H as (perWord & Hplaced & ->).
  by eapply Placed_inside.
Qed.

Lemma sentence_ranges_inside_witness :
  searchSentenceByBoundaryMapping RangeUtility.getRestRanges
    (identityMapping (Js.ofString "abcdef")) (Js.ofString "ce ab")
  = Normal (Some [(2, 2); (4, 4); (0, 1)])
  /\ Forall (fun x => 0 <= x.1 /\ x.1 <= x.2 /\ x.2 < 6) [(2, 2); (4, 4); (0, 1)].
Proof.
  split; [reflexivity|].
  apply (sentence_ranges_inside RangeUtility.getRestRanges
           (identityMapping (Js.ofString "abcdef")) (Js.ofString "ce ab")).
  - apply getRestRanges_contract.
  - apply identityMapping_wf.
  - reflexivity.
  - reflexivity.
Defined.

(** ** The size of a hit *)

Lemma set_Forall {A} (P : A -> Prop) (hole v : A) (i : nat) (a : list A) :
  Forall P a -> P hole -> P v -> Forall P (Js.set hole i v a).
Proof.
  intros Ha Hhole Hv. unfold Js.set. destruct (i <? length a)%nat.
  - by apply Forall_insert.
  - apply Forall_app. split; [done|]. apply Forall_app. split.
    + by apply Forall_replicate.
    + by constructor.
Qed.

Lemma covered_cons r m : covered (r :: m) = r.2 - r.1 + 1 + covered m.
Proof. reflexivity. Qed.

Lemma cellAt_lean row k : Forall leanCell row -> leanCell (cellAt row k).
Proof.
  intros Hrow. unfold cellAt, Js.at_. destruct (k <? 0); [done|].
  destruct (row !! Z.to_nat k) as [c|] eqn:Hc; [|done].
  by eapply Forall_lookup_1.
Qed.

Section LeanProofs.

Variables (pinyin : list N) (bnd : list (Z * Z)) (target : list N).
Variables (startBoundary endBoundary : Z).

Lemma extension_lean p b prev :
  leanItem prev ->
  leanItem (extendedItem startBoundary endBoundary p b prev)
  /\ leanCell (Some (extendedCell startBoundary endBoundary p b prev)).
Proof.
  destruct prev as [[[ms ml] bs] be]. unfold leanItem, leanCell, extendedItem, extendedCell.
  intros Hle. destruct (isNewWord _ _ _ _ _); cbn [Js.toInt negb]; lia.
Qed.

Lemma written_Lean st p m item s cell row :
  Lean st -> leanItem item -> leanCell cell -> dpMatchPath st !! p = Some row ->
  Lean {| dpTable := <[p := item]> (dpTable st);
          dpScores := s;
          dpMatchPath := <[p := Js.set None m cell row]> (dpMatchPath st) |}.
Proof.
  intros [Ht Hp] Hitem Hcell Hrow. split; cbn [dpTable dpMatchPath].
  - by apply Forall_insert.
  - apply Forall_insert; [done|]. apply set_Forall; [|done|done].
    by eapply Forall_lookup_1.
Qed.

Lemma dpStep_Lean m p prev prevScore st nextItem nextScore st' :
  dpStep pinyin bnd target startBoundary endBoundary m p (prev, prevScore) st
  = Normal (nextItem, nextScore, st') ->
  leanItem prev -> Lean st -> leanItem nextItem /\ Lean st'.
Proof.
  intros Hstep Hprev Hlean.
  apply dpStep_Normal in Hstep as (b & leftScore & Hni & _ & _ & _ & Hbranch).
  split; [by eapply Forall_lookup_1; [apply (lean_table st Hlean)|]|].
  destruct (extension_lean p b prev Hprev) as [Hitem Hcell].
  destruct (_ && _).
  - apply acceptExtension_Normal in Hbranch as (ls & row & cell & _ & Hrow & Hc & ->).
    apply written_Lean; try done.
    destruct (ls <? _); [by subst|].
    destruct Hc as (leftRow & HleftRow & ->). apply cellAt_lean.
    by eapply Forall_lookup_1; [apply (lean_path st Hlean)|].
  - apply carryForward_Normal in Hbranch
      as (ls & leftRow & row & leftItem & keep & _ & HleftRow & Hrow & Hli & _ & ->).
    apply written_Lean; try done.
    + destruct keep; [|unfold leanItem; simpl; lia].
      by eapply Forall_lookup_1; [apply (lean_table st Hlean)|].
    + apply cellAt_lean. by eapply Forall_lookup_1; [apply (lean_path st Hlean)|].
Qed.

Lemma dpInner_Lean n m p current st st' :
  dpInner pinyin bnd target startBoundary endBoundary n m p current st = Normal st' ->
  leanItem current.1 -> Lean st -> Lean st'.
Proof.
  revert p current st. induction n as [|n IH]; intros p [prev prevScore] st;
    cbn [dpInner].
  - by intros [= <-].
  - destruct (dpStep _ _ _ _ _ _ _ _ _) as [[[nextItem nextScore] st1]| |] eqn:Hstep;
      cbn [mbind Completion_bind]; try done.
    intros Hrun Hprev Hlean.
    destruct (dpStep_Lean _ _ _ _ _ _ _ _ Hstep Hprev Hlean) as [Hnext Hlean1].
    by eapply IH.
Qed.

Lemma dpPass_Lean m mp st st' :
  dpPass pinyin bnd target startBoundary endBoundary m mp st = Normal st' ->
  Lean st -> Lean st'.
Proof.
  unfold dpPass. intros H Hlean. read_must H.
  eapply dpInner_Lean; [done| |].
  - cbn [fst]. by eapply Forall_lookup_1; [apply (lean_table st Hlean)|].
  - destruct Hlean as [Ht Hp]. split; cbn [dpTable dpMatchPath]; [|done].
    apply Forall_insert; [done|]. unfold leanItem. simpl. lia.
Qed.

Lemma dpOuter_Lean mps m st st' :
  dpOuter pinyin bnd target startBoundary endBoundary m mps st = Normal st' ->
  Lean st -> Lean st'.
Proof.
  revert m st. induction mps as [|mp mps IH]; intros m st; cbn [dpOuter].
  - by intros [= <-].
  - destruct (dpPass _ _ _ _ _ _ _ _) as [st1| |] eqn:Hpass;
      cbn [mbind Completion_bind]; try done.
    intros Hrun Hlean. eapply IH; [done|]. by eapply dpPass_Lean.
Qed.

Lemma dpInit_Lean : Lean (dpInit pinyin target).
Proof.
  split; unfold dpInit; cbn [dpTable dpMatchPath].
  - apply Forall_replicate. unfold leanItem. simpl. lia.
  - apply Forall_replicate. by apply Forall_replicate.
Qed.

Lemma backtrack_size limit lo st row startIndex :
  Done bnd startBoundary (length pinyin) (length target) limit
       (Z.of_nat (length target) - 1) lo st ->
  dpMatchPath st !! length pinyin = Some row ->
  Forall leanCell row ->
  forall fuel i acc hits,
    -1 <= i -> i <= Z.of_nat (length target) - 1 ->
    backtrack fuel row i startIndex acc = Normal hits ->
    covered hits <= covered acc + (i + 1)
    /\ Z.of_nat (length hits) <= Z.of_nat (length acc) + (i + 1)
    /\ (length acc <= length hits)%nat
    /\ (0 <= i -> (length acc < length hits)%nat).
Proof.
  intros Hdone Hrow Hlean.
  induction fuel as [|fuel IH]; intros i acc hits Hlo Hhi; simpl.
  - destruct (Z.ltb_spec i 0); [|done]. intros [= <-]. split_and!; lia.
  - destruct (Z.ltb_spec i 0) as [|Hi0]; [intros [= <-]; split_and!; lia|].
    destruct (cellAt row i) as [[[start end_] k]|] eqn:Hc;
      cbn [mbind Completion_bind must]; [|done].
    pose proof (done_cols _ _ _ _ _ _ _ _ Hdone i row _ Hhi Hrow Hc) as Hgc.
    pose proof (cellAt_lean row i Hlean) as Hlc. rewrite Hc in Hlc.
    destruct Hgc as (_ & _ & _ & [Hk1 Hk2] & _). unfold leanCell in Hlc.
    intros Hrun. apply IH in Hrun; [|lia|lia].
    destruct Hrun as (Hcov & Hlen & Hmono & _).
    rewrite covered_cons in Hcov. cbn [fst snd length] in *. split_and!; lia.
Qed.

End LeanProofs.

Lemma hit_size_core d target startIndex endIndex hits :
  wf_data d -> validRange d startIndex endIndex ->
  searchByBoundaryMapping d target startIndex endIndex = Normal (Return137 hits) ->
  hits <> []
  /\ covered hits <= Z.of_nat (length target)
  /\ (length hits <= length target)%nat.
Proof.
  intros Hwf Hr H.
  apply search_site in H as [[[=] _]|(Hne & Hlen & Hn & first & Hfirst & Hm)].
  apply matchWord_site in Hm as [[[=] _]|(Hscan & st & row & Hrun & Hrow & Hres)].
  destruct Hres as [[[=] _]|(hits' & [= <-] & Hback)].
  pose proof (wf_slice_of_wf d _ _ first Hwf Hr Hfirst) as Hslice.
  pose proof (scan_anchored 0 (pinyinSlice d startIndex endIndex) target) as Hanch.
  rewrite Nat.add_0_l in Hanch.
  pose proof (scan_length_le 0 (pinyinSlice d startIndex endIndex) target) as Hle.
  destruct (dpOuter_Done _ _ target _ first.2 _ Hslice
              (scan 0 (pinyinSlice d startIndex endIndex) target) 0 0 _
              ltac:(lia) Hanch (dpInit_Done _ _ _ _ _ Hslice))
    as (st' & lo & Hrun' & Hdone).
  rewrite Hrun in Hrun'. injection Hrun' as <-.
  rewrite Nat.add_0_l, Hscan in Hdone.
  pose proof (dpOuter_Lean _ _ _ _ _ _ _ _ _ Hrun
                (dpInit_Lean (pinyinSlice d startIndex endIndex) target)) as Hlean.
  assert (Hrowlean : Forall leanCell row).
  { by eapply Forall_lookup_1; [apply (lean_path st Hlean)|]. }
  destruct (backtrack_size _ _ _ _ _ lo st row startIndex Hdone Hrow Hrowlean
              (length target) (Z.of_nat (length target) - 1) [] hits
              ltac:(lia) ltac:(lia) Hback) as (Hcov & Hl & _ & Hpos).
  assert (0 < Z.of_nat (length target)) by (destruct target; [done|simpl; lia]).
  change (covered []) with 0 in Hcov. cbn [length] in *. split_and!; try lia.
  intros ->. specialize (Hpos ltac:(lia)). simpl in Hpos. lia.
Qed.

(** X9: on a well-formed mapping and a sub-range of its characters, a
    matrix that [searchByBoundaryMapping] returns is not empty, and its
    ranges together cover no more characters than the word has letters;
    in particular it has no more ranges than the word has letters. *)
Theorem hit_size d target startIndex endIndex hits :
  wf_data d -> validRange d startIndex endIndex ->
  searchByBoundaryMapping d target startIndex endIndex = Normal (Return137 hits) ->
  hits <> []
  /\ covered hits <= Z.of_nat (length target)
  /\ (length hits <= length target)%nat.
Proof. apply hit_size_core. Qed.

Lemma hit_size_witness :
  searchByBoundaryMapping (identityMapping (Js.ofString "tetmplpimpo")) (Js.ofString "emp")
    0 11 = Normal (Return137 [(1, 1); (3, 4)])
  /\ ([(1, 1); (3, 4)] <> ([] : Matrix)
      /\ covered [(1, 1); (3, 4)] <= 3
      /\ (2 <= 3)%nat).
Proof.
  split; [reflexivity|].
  apply (hit_size (identityMapping (Js.ofString "tetmplpimpo")) (Js.ofString "emp") 0 11).
  - apply identityMapping_wf.
  - unfold validRange. simpl. lia.
  - reflexivity.
Defined.

(** ** A word of one letter *)

Section OneLetterProofs.

Variables (pinyin : list N) (bnd : list (Z * Z)) (c : N).
Variables (startBoundary endBoundary limit : Z).

Hypothesis Hslice : wf_slice bnd startBoundary limit (length pinyin).

Local Abbreviation opens := (opens pinyin bnd endBoundary c).
Local Abbreviation firstOpening := (firstOpening pinyin bnd endBoundary c).
Local Abbreviation foundAfter := (foundAfter pinyin bnd startBoundary endBoundary c).

Lemma extends_opens (p : nat) b prevScore :
  (1 <= p)%nat -> bnd !! p = Some b ->
  extends_ pinyin [c] startBoundary endBoundary 0 p b defaultDpTableValue prevScore
  = opens p
  /\ (opens p = true ->
      extendedCell startBoundary endBoundary p b defaultDpTableValue
      = (b.1 - startBoundary, b.1 - startBoundary, 1)).
Proof.
  intros Hp Hb.
  destruct (charOffset_at pinyin bnd startBoundary limit Hslice p b Hp Hb) as [_ [Hlo _]].
  unfold extends_, isEqual, isNewWord, isContinuation, extendedCell, opens,
    defaultDpTableValue.
  rewrite Hb. change (Js.at_ [c] (Z.of_nat 0)) with (Some c).
  destruct (Z.eqb_spec (-1) (b.1 - startBoundary)); [lia|].
  cbn [negb andb orb Nat.eqb]. rewrite !andb_true_r, orb_false_r.
  split; [done|]. intros Hopen. apply andb_true_iff in Hopen as [_ Hstart].
  unfold isNewWord. rewrite Hstart.
  destruct (Z.eqb_spec (-1) (b.1 - startBoundary)); [lia|].
  cbn [Js.toInt negb andb]. f_equal. f_equal. lia.
Qed.

Lemma dpStep_OneLetter (p : nat) found current st next st' :
  (1 <= p)%nat ->
  dpStep pinyin bnd [c] startBoundary endBoundary 0 p current st = Normal (next, st') ->
  OneLetter p found current st ->
  OneLetter (S p) (foundAfter found 1 p) next st'.
Proof.
  intros Hp Hstep [Hcur Htable Hscores Hls Hlc]. subst current. destruct next as [ni ns].
  apply dpStep_Normal in Hstep as (b & ls & Hni & Hns & Hb & Hleft & Hbranch).
  pose proof (Htable p ni ltac:(lia) Hni) as ->.
  pose proof (Hscores p ns ltac:(lia) Hns) as ->.
  pose proof (Hls ls Hleft) as Hlsv.
  destruct (extends_opens p b 0 Hp Hb) as [Hext Hcell]. rewrite Hext in Hbranch.
  assert (Hlen_t : (p < length (dpTable st))%nat) by (by eapply lookup_lt_Some).
  assert (Hlen_s : (p < length (dpScores st))%nat) by (by eapply lookup_lt_Some).
  change (extendedScore defaultDpTableValue 0) with 1 in Hbranch.
  assert (Hfound : foundAfter found 1 p
                   = match found with
                     | Some _ => found
                     | None => if opens p then cellOf bnd startBoundary p else None
                     end).
  { unfold foundAfter. destruct found; [done|].
    change (firstOpening 1 p) with (if opens p then Some p else None).
    by destruct (opens p). }
  rewrite Hfound. clear Hfound.
  assert (Hle : (ls <=? 1) = true) by (apply Z.leb_le; destruct found; lia).
  rewrite Hle, andb_true_r in Hbranch.
  destruct (opens p) eqn:Hopen.
  - apply acceptExtension_Normal in Hbranch as (ls' & row & cell & Hleft' & Hrow & Hc & ->).
    assert (ls' = ls) as -> by congruence.
    change (extendedScore defaultDpTableValue 0) with 1 in *.
    assert (Hcellv : cell = match found with
                            | Some _ => found
                            | None => cellOf bnd startBoundary p
                            end).
    { destruct found as [f|].
      - subst ls. cbn in Hc. destruct Hc as (leftRow & HleftRow & ->). by apply Hlc.
      - subst ls. cbn in Hc. subst cell. unfold cellOf. rewrite Hb. f_equal.
        by apply Hcell. }
    split; cbn [dpTable dpScores dpMatchPath]; replace (S p - 1)%nat with p by lia.
    + done.
    + intros q it Hq. rewrite list_lookup_insert_ne by lia. apply Htable. lia.
    + intros q s Hq. rewrite list_lookup_insert_ne by lia. apply Hscores. lia.
    + intros s. rewrite list_lookup_insert_eq by done. intros [= <-].
      destruct found; [done|]. unfold cellOf. by rewrite Hb.
    + intros r. rewrite list_lookup_insert_eq by (by eapply lookup_lt_Some).
      intros [= <-]. pose proof (cellAt_set_eq 0 cell row) as Hset.
      change (Z.of_nat 0) with 0 in Hset. by rewrite Hset.
  - apply carryForward_Normal in Hbranch
      as (ls' & leftRow & row & leftItem & keep & Hleft' & HleftRow & Hrow & _ & _ & ->).
    assert (ls' = ls) as -> by congruence.
    split; cbn [dpTable dpScores dpMatchPath]; replace (S p - 1)%nat with p by lia.
    + done.
    + intros q it Hq. rewrite list_lookup_insert_ne by lia. apply Htable. lia.
    + intros q s Hq. rewrite list_lookup_insert_ne by lia. apply Hscores. lia.
    + intros s. rewrite list_lookup_insert_eq by done. intros [= <-].
      subst ls. by destruct found.
    + intros r. rewrite list_lookup_insert_eq by (by eapply lookup_lt_Some).
      intros [= <-]. pose proof (cellAt_set_eq 0 (cellAt leftRow 0) row) as Hset.
      change (Z.of_nat 0) with 0 in *. rewrite Hset.
      rewrite (Hlc leftRow HleftRow). by destruct found.
Qed.

Lemma foundAfter_step found n p :
  foundAfter (foundAfter found 1 p) n (S p) = foundAfter found (S n) p.
Proof.
  unfold foundAfter. destruct found; [done|]. simpl.
  destruct (opens p) eqn:Hopen; [|done].
  unfold cellOf. unfold opens in Hopen. by destruct (bnd !! p).
Qed.

Lemma dpInner_OneLetter n (p : nat) found current st st' :
  (1 <= p)%nat ->
  dpInner pinyin bnd [c] startBoundary endBoundary n 0 p current st = Normal st' ->
  OneLetter p found current st ->
  exists last, OneLetter (p + n) (foundAfter found n p) last st'.
Proof.
  revert p found current st. induction n as [|n IH]; intros p found current st Hp;
    cbn [dpInner].
  - intros [= <-] Hone. exists current. rewrite Nat.add_0_r.
    unfold foundAfter. by destruct found.
  - destruct (dpStep _ _ _ _ _ _ _ _ _) as [[[ni ns] st1]| |] eqn:Hstep;
      cbn [mbind Completion_bind]; try done.
    intros Hrun Hone.
    pose proof (dpStep_OneLetter p found current st (ni, ns) st1 Hp Hstep Hone) as Hone1.
    destruct (IH (S p) _ _ _ ltac:(lia) Hrun Hone1) as [last Hlast].
    exists last. rewrite foundAfter_step in Hlast.
    by replace (p + S n)%nat with (S p + n)%nat by lia.
Qed.

Lemma OneLetter_start mp :
  (mp < length pinyin)%nat ->
  OneLetter (S mp) None (defaultDpTableValue, 0)
    {| dpTable := <[mp := defaultDpTableValue]> (dpTable (dpInit pinyin [c]));
       dpScores := <[mp := 0]> (dpScores (dpInit pinyin [c]));
       dpMatchPath := dpMatchPath (dpInit pinyin [c]) |}.
Proof.
  intros Hmp. unfold dpInit. cbn [dpTable dpScores dpMatchPath].
  split; cbn [dpTable dpScores dpMatchPath]; replace (S mp - 1)%nat with mp by lia.
  - done.
  - intros q it Hq. rewrite list_lookup_insert_ne by lia. by intros [-> _]%lookup_replicate.
  - intros q s Hq. rewrite list_lookup_insert_ne by lia. by intros [-> _]%lookup_replicate.
  - intros s. rewrite list_lookup_insert_eq by (rewrite length_replicate; lia).
    by intros [= <-].
  - intros row [-> _]%lookup_replicate. apply cellAt_replicate.
Qed.

Lemma scan_one i ps :
  scan i ps [c] = []
  /\ (forall q : nat, ps !! q <> Some c)
  \/ exists mp, scan i ps [c] = [mp] /\ (i <= mp < i + length ps)%nat
                /\ forall q : nat, (q < mp - i)%nat -> ps !! q <> Some c.
Proof.
  revert i. induction ps as [|x ps IH]; intros i; simpl.
  - left. split; [done|]. intros q. by rewrite lookup_nil.
  - destruct (N.eqb_spec x c) as [->|Hne].
    + right. exists i. split; [by destruct ps|]. split; [lia|]. intros q Hq. lia.
    + destruct (IH (S i)) as [[-> Hno]|(mp & -> & Hmp & Hno)].
      * left. split; [done|]. intros [|q]; simpl; [congruence|apply Hno].
      * right. exists mp. split; [done|]. split; [lia|].
        intros [|q] Hq; simpl; [congruence|]. apply Hno. lia.
Qed.

Lemma opens_letter (p : nat) : opens p = true -> (1 <= p)%nat /\ pinyin !! (p - 1)%nat = Some c.
Proof.
  unfold opens. destruct (bnd !! p); [|done]. intros [Heq _]%andb_true_iff.
  unfold Js.strictEq, Js.at_ in Heq.
  destruct (Z.ltb_spec (Z.of_nat p - 1) 0); [done|].
  split; [lia|]. replace (Z.to_nat (Z.of_nat p - 1)) with (p - 1)%nat in Heq by lia.
  destruct (pinyin !! (p - 1)%nat) as [x|]; [|done]. apply N.eqb_eq in Heq. by subst.
Qed.

Lemma firstOpening_skip k n p :
  (forall q : nat, (p <= q < p + k)%nat -> opens q = false) ->
  firstOpening (k + n) p = firstOpening n (p + k).
Proof.
  revert p. induction k as [|k IH]; intros p Hno; simpl.
  - by rewrite Nat.add_0_r.
  - rewrite (Hno p) by lia. rewrite IH; [f_equal; lia|]. intros q Hq. apply Hno. lia.
Qed.

Lemma firstOpening_none n p :
  (forall q : nat, (p <= q < p + n)%nat -> opens q = false) -> firstOpening n p = None.
Proof.
  revert p. induction n as [|n IH]; intros p Hno; simpl; [done|].
  rewrite (Hno p) by lia. apply IH. intros q Hq. apply Hno. lia.
Qed.

Lemma matchWord_one_letter startIndex :
  exists r,
    matchWord pinyin bnd [c] startBoundary endBoundary startIndex = Normal r
    /\ valueOf r
       = match firstOpening (length pinyin) 1 with
         | Some p =>
             match bnd !! p with
             | Some b => Some [(b.1 - startBoundary + startIndex,
                                b.1 - startBoundary + startIndex)]
             | None => None
             end
         | None => None
         end.
Proof.
  destruct (matchWord_returns pinyin bnd [c] startBoundary endBoundary limit Hslice
              startIndex (fun _ => True)) as (r & Hr & _); [done|].
  exists r. split; [done|].
  apply matchWord_site in Hr as [[-> Hlt]|(Hscan & st & row & Hrun & Hrow & Hres)].
  - destruct (scan_one 0 pinyin) as [[_ Hno]|(mp & Heq & _)];
      [|rewrite Heq in Hlt; simpl in Hlt; lia].
    rewrite firstOpening_none; [done|]. intros q Hq.
    destruct (opens q) eqn:Hopen; [|done].
    apply opens_letter in Hopen as [_ Hl]. by apply Hno in Hl.
  - destruct (scan_one 0 pinyin) as [[Heq _]|(mp & Heq & Hmp & Hno)];
      [rewrite Heq in Hscan; discriminate|].
    rewrite Heq in Hrun. cbn [dpOuter] in Hrun.
    destruct (dpPass _ _ _ _ _ _ _ _) as [st1| |] eqn:Hpass;
      cbn [mbind Completion_bind] in Hrun; try discriminate.
    injection Hrun as ->. unfold dpPass in Hpass. read_must Hpass.
    replace (S mp - 1)%nat with mp in * by lia.
    assert (Hcur : (p, z) = (defaultDpTableValue, 0)).
    { unfold dpInit in Eread, Eread0. cbn [dpTable dpScores] in Eread, Eread0.
      apply lookup_replicate in Eread as [-> _].
      by apply lookup_replicate in Eread0 as [-> _]. }
    rewrite Hcur in Hpass.
    destruct (dpInner_OneLetter _ (S mp) None _ _ _ ltac:(lia) Hpass
                (OneLetter_start mp ltac:(lia))) as [last Hone].
    replace (S mp + (S (length pinyin) - S mp))%nat with (S (length pinyin)) in Hone by lia.
    pose proof (one_left_cell _ _ _ _ Hone row) as Hcell.
    replace (S (length pinyin) - 1)%nat with (length pinyin) in Hcell by lia.
    specialize (Hcell Hrow).
    assert (Hfirst : firstOpening (length pinyin) 1
                     = firstOpening (S (length pinyin) - S mp) (S mp)).
    { replace (length pinyin) with (mp + (S (length pinyin) - S mp))%nat at 1 by lia.
      rewrite firstOpening_skip; [f_equal; lia|].
      intros q Hq. destruct (opens q) eqn:Hopen; [|done].
      apply opens_letter in Hopen as [_ Hl]. exfalso. apply (Hno (q - 1)%nat); [lia|done]. }
    rewrite Hfirst. unfold foundAfter in Hcell.
    cbn [length Z.of_nat] in Hres, Hcell. change (Z.of_nat 1 - 1) with 0 in Hres.
    destruct Hres as [[-> Hnone]|(hits & -> & Hback)].
    + rewrite Hnone in Hcell.
      destruct (firstOpening _ _) as [p1|]; [|done].
      unfold cellOf in Hcell. by destruct (bnd !! p1).
    + cbn [backtrack] in Hback. change (0 <? 0) with false in Hback.
      cbn iota in Hback. rewrite Hcell in Hback.
      destruct (firstOpening _ _) as [p1|]; [|done].
      unfold cellOf in Hback. destruct (bnd !! p1) as [b|]; [|done].
      cbn [mbind Completion_bind must] in Hback.
      change (0 - 1 <? 0) with true in Hback. cbn iota in Hback.
      injection Hback as <-. done.
Qed.

End OneLetterProofs.



(** ** Blank queries and the size of the answer of a sentence *)

(** X11: for every source and every blank query (empty or made of
    white space) the literal search succeeds at position 0:
    [searchEntry] returns the range from 0 that has the length of the
    query, [[0, -1]] for the empty query; and
    [searchSentenceByBoundaryMapping] returns the same range, except
    for the empty query, which its guard of line 141 answers with
    no-match. *)
Theorem blank_query_behaviour getRestRanges source q
    (getBoundaryMapping : list N -> SourceMappingData) (d : SourceMappingData) :
  blank q ->
  searchEntry getRestRanges source q getBoundaryMapping
  = Normal (Some [(0, Z.of_nat (length q) - 1)])
  /\ searchSentenceByBoundaryMapping getRestRanges d q
     = Normal (match q with
               | [] => None
               | _ :: _ => Some [(0, Z.of_nat (length q) - 1)]
               end).
Proof.
  intros Hq.
  destruct (blank_query_general getRestRanges source q getBoundaryMapping d Hq) as [He Hs].
  split; [by rewrite He|].
  destruct q as [|c q]; [done|]. by rewrite Hs.
Qed.

Lemma blank_query_behaviour_witness :
  searchEntry RangeUtility.getRestRanges (Js.ofString "abc") (Js.ofString "  ")
    identityMapping
  = Normal (Some [(0, 2 - 1)])
  /\ searchSentenceByBoundaryMapping RangeUtility.getRestRanges
       (identityMapping (Js.ofString "abc")) (Js.ofString "  ")
     = Normal (Some [(0, 2 - 1)]).
Proof.
  apply (blank_query_behaviour RangeUtility.getRestRanges (Js.ofString "abc")
           (Js.ofString "  ") identityMapping (identityMapping (Js.ofString "abc"))).
  repeat constructor.
Defined.

Lemma covered_app m m' : covered (m ++ m') = covered m + covered m'.
Proof.
  induction m as [|r m IH]; [done|].
  change ((r :: m) ++ m') with (r :: (m ++ m')). rewrite !covered_cons, IH. lia.
Qed.

Lemma Placed_size getRestRanges d words claimedRanges perWord :
  restRangesContract getRestRanges -> wf_data d ->
  Placed getRestRanges d words claimedRanges perWord ->
  covered (concat perWord) <= letters words
  /\ (length words <= length (concat perWord))%nat.
Proof.
  intros Hc Hwf. induction 1 as [|word words claimedRanges r hit perWord Hr Hs _ IH];
    simpl; [done|].
  pose proof (rest_within _ Hc _ _ _ Hr) as Hvalid.
  destruct (hit_size_core d word r.1 r.2 hit Hwf Hvalid Hs) as (Hne & Hcov & _).
  rewrite covered_app, length_app. unfold letters in *. cbn [foldr].
  destruct hit; [done|]. simpl length. lia.
Qed.

Lemma splitLoop_letters cur sep s :
  letters (Js.splitLoop cur sep s) <= Z.of_nat (length cur) + Z.of_nat (length s)
  /\ Js.splitLoop cur sep s <> [].
Proof.
  revert cur sep. induction s as [|c s IH]; intros cur sep; simpl.
  - split; [|done]. unfold letters. cbn [foldr]. rewrite length_reverse. lia.
  - destruct (Js.isWhiteSpace c).
    + destruct sep.
      * destruct (IH cur true) as [Hl Hne]. split; [lia|done].
      * destruct (IH [] true) as [Hl Hne]. split; [|done].
        unfold letters in *. cbn [foldr]. rewrite length_reverse. simpl in Hl. lia.
    + destruct (IH (c :: cur) false) as [Hl Hne]. split; [|done]. simpl in Hl. lia.
Qed.

Lemma trim_length s : (length (Js.trim s) <= length s)%nat.
Proof.
  assert (Hstart : forall y, (length (Js.trimStart y) <= length y)%nat).
  { intros y. destruct (trimStart_suffix y) as [pre Hpre].
    apply (f_equal length) in Hpre. rewrite length_app in Hpre. lia. }
  unfold Js.trim, Js.trimEnd. rewrite length_reverse.
  pose proof (Hstart (reverse (Js.trimStart s))) as H1. rewrite length_reverse in H1.
  pose proof (Hstart s). lia.
Qed.

(** X12: on a well-formed mapping, and with a range utility that meets
    its contract, a matrix that the sentence level returns is not empty
    and its ranges together cover no more characters than the query has
    code units, by the literal search as well as by the placement of the
    words. *)
Theorem sentence_hit_size getRestRanges d sentence hits :
  restRangesContract getRestRanges -> wf_data d ->
  searchSentenceByBoundaryMapping getRestRanges d sentence = Normal (Some hits) ->
  hits <> [] /\ covered hits <= Z.of_nat (length sentence).
Proof.
  intros Hc Hwf. unfold searchSentenceByBoundaryMapping.
  destruct (length sentence =? 0)%nat; [done|].
  destruct (searchWithIndexof _ _) as [lit|] eqn:Hlit.
  - intros [= <-]. pose proof (searchWithIndexof_cases (originalString d) sentence) as Hspec.
    rewrite Hlit in Hspec. destruct Hspec as (i & _ & ->).
    split; [done|]. rewrite covered_cons. cbn [fst snd]. change (covered []) with 0. lia.
  - intros H. apply placeWords_Placed in H as (perWord & Hplaced & ->).
    destruct (Placed_size _ _ _ _ _ Hc Hwf Hplaced) as [Hcov Hlen].
    destruct (splitLoop_letters [] false (Js.trim sentence)) as [Hl Hne].
    pose proof (trim_length sentence). unfold Js.splitWhiteSpace in *. simpl in Hl.
    split; [|simpl; lia].
    simpl. intros Hnil. rewrite Hnil in Hlen. simpl in Hlen.
    destruct (Js.splitLoop [] false (Js.trim sentence)); [done|simpl in Hlen; lia].
Qed.

Lemma sentence_hit_size_witness :
  searchSentenceByBoundaryMapping RangeUtility.getRestRanges
    (identityMapping (Js.ofString "abcdef")) (Js.ofString "ce ab")
  = Normal (Some [(2, 2); (4, 4); (0, 1)])
  /\ ([(2, 2); (4, 4); (0, 1)] <> ([] : Matrix)
      /\ covered [(2, 2); (4, 4); (0, 1)] <= 5).
Proof.
  split; [reflexivity|].
  apply (sentence_hit_size RangeUtility.getRestRanges
           (identityMapping (Js.ofString "abcdef")) (Js.ofString "ce ab")).
  - apply getRestRanges_contract.
  - apply identityMapping_wf.
  - reflexivity.
Defined.
